(** * Terminal maze solver: the grid, the A* search loop and path reconstruction

    A shallow embedding of [src/main.py] (class [MazeGrid], [manhattan_distance],
    [a_star_search], [reconstruct_path]) and the properties of the
    specification proved about it.

    Conventions of the embedding:
    - Python integers are [Z]; a cell [(row, col)] is a pair of [Z];
    - a marker (a Python [str]) is a [string]; the grid is a list of rows;
    - list indexing [l[i]] is [py_index], which counts a negative index from
      the end and raises [IndexError] out of range, as Python does;
    - exceptions are the [Raise] results of the type [res]; a loop that has
      not finished when its fuel is used up gives [NoFuel];
    - the dictionaries [came_from], [g_score], [f_score] are [gmap]s and the
      set [open_set_hash] is a [gset]; a missing key of the two
      [defaultdict]s stands for [float('inf')];
    - the [heapq] priority queue is a list of entries [(f, counter, cell)];
      [heappop] removes the least entry for Python's tuple order. *)

From Stdlib Require Import ZArith Lia.
From stdpp Require Import gmap strings list fin_maps.

Local Open Scope Z_scope.

(** ** Results and exceptions *)

Inductive exn : Type :=
| ValueError (msg : string)
| IndexError.

Inductive res (A : Type) : Type :=
| Ok (a : A)
| Raise (e : exn)
| NoFuel.

Arguments Ok {A} a.
Arguments Raise {A} e.
Arguments NoFuel {A}.

Definition res_bind {A B : Type} (x : res A) (k : A -> res B) : res B :=
  match x with
  | Ok a => k a
  | Raise e => Raise e
  | NoFuel => NoFuel
  end.

Notation "'let*' x ':=' e 'in' k" := (res_bind e (fun x => k))
  (at level 10, x name, e at level 100, k at level 200).

(** ** Cells and the grid *)

Abbreviation Cell := (Z * Z)%type.

(** [l[i]] of Python. *)
Definition py_index {A : Type} (l : list A) (i : Z) : res A :=
  let n := Z.of_nat (length l) in
  let j := if i <? 0 then i + n else i in
  if (0 <=? j) && (j <? n) then
    match l !! Z.to_nat j with
    | Some x => Ok x
    | None => Raise IndexError
    end
  else Raise IndexError.

(** [grid[r][c]] *)
Definition grid_at (grid : list (list string)) (r c : Z) : res string :=
  let* row := py_index grid r in py_index row c.

Record MazeGrid : Type := mkMazeGrid {
  grid : list (list string);
  rows : Z;
  cols : Z;
  start : Cell;
  goal : Cell
}.

(** [_find_position]: the inner [for c in range(self.cols)] at row [r],
    with [n] columns left from column [c]. *)
Fixpoint find_in_row (g : list (list string)) (symbol : string)
    (r c : Z) (n : nat) : res (option Cell) :=
  match n with
  | O => Ok None
  | S n' =>
      let* x := grid_at g r c in
      if decide (x = symbol) then Ok (Some (r, c))
      else find_in_row g symbol r (c + 1) n'
  end.

(** The outer [for r in range(self.rows)], with [n] rows left from row [r]. *)
Fixpoint find_in_rows (g : list (list string)) (symbol : string)
    (ncols : nat) (r : Z) (n : nat) : res (option Cell) :=
  match n with
  | O => Ok None
  | S n' =>
      let* p := find_in_row g symbol r 0 ncols in
      match p with
      | Some pos => Ok (Some pos)
      | None => find_in_rows g symbol ncols (r + 1) n'
      end
  end.

(** [MazeGrid._find_position]; it runs inside [__init__], when only
    [self.grid], [self.rows] and [self.cols] are set, so it takes these. *)
Definition _find_position (g : list (list string)) (nrows ncols : Z)
    (symbol : string) : res (option Cell) :=
  find_in_rows g symbol (Z.to_nat ncols) 0 (Z.to_nat nrows).

Definition len {A : Type} (l : list A) : Z := Z.of_nat (length l).

(** [MazeGrid.__init__] *)
Definition MazeGrid_init (g : list (list string)) : res MazeGrid :=
  let nrows := len g in
  let ncols := match g with
               | [] => 0
               | row0 :: _ => len row0
               end in
  let* start_pos := _find_position g nrows ncols "S" in
  let* goal_pos := _find_position g nrows ncols "G" in
  match start_pos with
  | None => Raise (ValueError "Start position 'S' not found in maze!")
  | Some s =>
      match goal_pos with
      | None => Raise (ValueError "Goal position 'G' not found in maze!")
      | Some t => Ok (mkMazeGrid g nrows ncols s t)
      end
  end.

(** [MazeGrid.is_valid] *)
Definition is_valid (self : MazeGrid) (pos : Cell) : res bool :=
  let '(row, col) := pos in
  if (0 <=? row) && (row <? rows self) && (0 <=? col) && (col <? cols self) then
    let* x := grid_at (grid self) row col in
    Ok (negb (bool_decide (x = "#")))
  else Ok false.

Definition directions : list (Z * Z) := [(-1, 0); (1, 0); (0, -1); (0, 1)].

(** The [for dr, dc in directions] loop of [get_neighbors]. *)
Fixpoint neighbors_loop (self : MazeGrid) (row col : Z)
    (dirs : list (Z * Z)) (neighbors : list Cell) : res (list Cell) :=
  match dirs with
  | [] => Ok neighbors
  | (dr, dc) :: dirs' =>
      let new_pos := (row + dr, col + dc) in
      let* b := is_valid self new_pos in
      neighbors_loop self row col dirs'
        (if b then neighbors ++ [new_pos] else neighbors)
  end.

(** [MazeGrid.get_neighbors] *)
Definition get_neighbors (self : MazeGrid) (pos : Cell) : res (list Cell) :=
  let '(row, col) := pos in
  neighbors_loop self row col directions [].

(** [manhattan_distance] *)
Definition manhattan_distance (pos1 pos2 : Cell) : Z :=
  Z.abs (pos1.1 - pos2.1) + Z.abs (pos1.2 - pos2.2).

(** ** The priority queue *)

Abbreviation entry := (Z * Z * Cell)%type.

(** Python's [<] on the tuples [(f, counter, (row, col))]. *)
Definition entry_ltb (x y : entry) : bool :=
  let '(f1, k1, (r1, c1)) := x in
  let '(f2, k2, (r2, c2)) := y in
  (f1 <? f2) ||
  ((f1 =? f2) &&
   ((k1 <? k2) ||
    ((k1 =? k2) && ((r1 <? r2) || ((r1 =? r2) && (c1 <? c2)))))).

Fixpoint heap_min (e : entry) (h : list entry) : entry :=
  match h with
  | [] => e
  | x :: h' => heap_min (if entry_ltb x e then x else e) h'
  end.

Fixpoint remove_first (e : entry) (h : list entry) : list entry :=
  match h with
  | [] => []
  | x :: h' => if decide (x = e) then h' else x :: remove_first e h'
  end.

(** [heapq.heappush] and [heapq.heappop].  The queue is kept as the list of
    its entries; which entry [heappop] returns does not depend on how
    [heapq] lays the entries out, since it is the least one, and the
    entries differ in their counters. *)
Definition heappush (h : list entry) (e : entry) : list entry := h ++ [e].

Definition heappop (h : list entry) : option (entry * list entry) :=
  match h with
  | [] => None
  | x :: h' => let m := heap_min x h' in Some (m, remove_first m h)
  end.

(** ** Path reconstruction *)

(** The [while current in came_from] loop. *)
Fixpoint reconstruct_loop (fuel : nat) (came_from : gmap Cell Cell)
    (current : Cell) (path : list Cell) : res (list Cell) :=
  match fuel with
  | O => NoFuel
  | S fuel' =>
      match came_from !! current with
      | None => Ok path
      | Some prev => reconstruct_loop fuel' came_from prev (path ++ [prev])
      end
  end.

(** [reconstruct_path].  A walk along predecessor links that takes more
    steps than the map has keys has entered a cycle, so the fuel
    [S (size came_from)] lets every walk that ends reach its end. *)
Definition reconstruct_path (came_from : gmap Cell Cell) (current : Cell)
    : res (list Cell) :=
  let* path := reconstruct_loop (S (size came_from)) came_from current [current] in
  Ok (reverse path).

(** ** The search *)

Record astate : Type := mkState {
  open_set : list entry;
  counter : Z;
  came_from : gmap Cell Cell;
  g_score : gmap Cell Z;
  f_score : gmap Cell Z;
  open_set_hash : gset Cell
}.

(** The state before the [while] loop. *)
Definition init_state (maze : MazeGrid) : astate :=
  let start := start maze in
  let goal := goal maze in
  mkState (heappush [] (0, 0, start)) 0 ∅
          {[ start := 0 ]}
          {[ start := manhattan_distance start goal ]}
          {[ start ]}.

(** One round of [for neighbor in maze.get_neighbors(current)].  A missing
    [g_score] is [float('inf')]: [inf + 1] is below nothing, and every
    number is below [inf]. *)
Definition relax (maze : MazeGrid) (current : Cell) (st : astate)
    (neighbor : Cell) : astate :=
  match g_score st !! current with
  | None => st
  | Some gc =>
      let tentative_g_score := gc + 1 in
      let better := match g_score st !! neighbor with
                    | None => true
                    | Some gn => tentative_g_score <? gn
                    end in
      if better then
        let came_from' := <[neighbor := current]> (came_from st) in
        let g_score' := <[neighbor := tentative_g_score]> (g_score st) in
        let fn := tentative_g_score + manhattan_distance neighbor (goal maze) in
        let f_score' := <[neighbor := fn]> (f_score st) in
        if decide (neighbor ∈ open_set_hash st) then
          mkState (open_set st) (counter st) came_from' g_score' f_score'
                  (open_set_hash st)
        else
          let counter' := counter st + 1 in
          mkState (heappush (open_set st) (fn, counter', neighbor)) counter'
                  came_from' g_score' f_score'
                  ({[ neighbor ]} ∪ open_set_hash st)
      else st
  end.

Definition expand (maze : MazeGrid) (current : Cell) (st : astate)
    (neighbors : list Cell) : astate :=
  foldl (relax maze current) st neighbors.

(** What one round of the [while open_set] loop does: it returns from
    [a_star_search], or it goes on with a new state. *)
Inductive step_result : Type :=
| Return (r : option (list Cell))
| Continue (st : astate).

(** The state after [heappop] and [open_set_hash.discard(current)]. *)
Definition popped (st : astate) (open_set' : list entry) (current : Cell)
    : astate :=
  mkState open_set' (counter st) (came_from st) (g_score st) (f_score st)
          (open_set_hash st ∖ {[ current ]}).

(** The body of the [while open_set] loop; the loop ends, and
    [a_star_search] returns [None], when the queue is empty. *)
Definition a_star_step (maze : MazeGrid) (st : astate) : res step_result :=
  match heappop (open_set st) with
  | None => Ok (Return None)
  | Some ((_, _, current), open_set') =>
      let st1 := popped st open_set' current in
      if decide (current = goal maze) then
        let* path := reconstruct_path (came_from st1) current in
        Ok (Return (Some path))
      else
        let* neighbors := get_neighbors maze current in
        Ok (Continue (expand maze current st1 neighbors))
  end.

Fixpoint a_star_loop (fuel : nat) (maze : MazeGrid) (st : astate)
    : res (option (list Cell)) :=
  match fuel with
  | O => NoFuel
  | S fuel' =>
      let* r := a_star_step maze st in
      match r with
      | Return x => Ok x
      | Continue st' => a_star_loop fuel' maze st'
      end
  end.

(** Rounds of the [while] loop that the search is given: every round pops
    one entry, and an entry is pushed only when a [g_score] drops. *)
Definition search_fuel (maze : MazeGrid) : nat :=
  let n := Z.to_nat (rows maze * cols maze) in
  (2 * (n * n) + 2)%nat.

(** [a_star_search] *)
Definition a_star_search (maze : MazeGrid) : res (option (list Cell)) :=
  a_star_loop (search_fuel maze) maze (init_state maze).

(** ** Vocabulary of the specification *)

(** The example matrices are written row by row as texts of ASCII
    markers: [list_of_str] splits such a text into its one-character
    markers. *)
Fixpoint list_of_str (s : string) : list string :=
  match s with
  | EmptyString => []
  | String a s' => String a EmptyString :: list_of_str s'
  end.

Definition maze_of_rows (l : list string) : list (list string) :=
  list_of_str <$> l.

(** The matrix is rectangular: every row is as long as the first one. *)
Definition rectangular (g : list (list string)) : Prop :=
  ∀ row, row ∈ g → length row = length (hd [] g).

(** The number of columns that [__init__] stores. *)
Definition width (g : list (list string)) : Z := len (hd [] g).

(** The marker [symbol] stands somewhere in the matrix. *)
Definition occurs (symbol : string) (g : list (list string)) : Prop :=
  ∃ row, row ∈ g ∧ symbol ∈ row.

(** The marker alphabet of the specification: start, goal, wall, open. *)
Definition alphabet : list string := ["S"; "G"; "#"; " "].

(** A malformed matrix in the words of the specification: a marker outside
    the alphabet, no start marker, no goal marker, or no row or column. *)
Definition malformed (g : list (list string)) : Prop :=
  (∃ x, x ∈ concat g ∧ x ∉ alphabet) ∨
  ¬ occurs "S" g ∨ ¬ occurs "G" g ∨ len g = 0 ∨ width g = 0.

(** The grid object is as [__init__] leaves it over a rectangular matrix. *)
Definition well_formed (self : MazeGrid) : Prop :=
  rows self = len (grid self) ∧ cols self = width (grid self) ∧
  rectangular (grid self).

#[global] Instance exn_eq_dec : EqDecision exn.
Proof. solve_decision. Defined.

#[global] Instance res_eq_dec {A : Type} `{EqDecision A} : EqDecision (res A).
Proof. solve_decision. Defined.

(** [(r', c')] is scanned before [(r, c)] in row-major order. *)
Definition scanned_before (p' p : Cell) : Prop :=
  p'.1 < p.1 ∨ (p'.1 = p.1 ∧ p'.2 < p.2).

(** [pos] is the first cell, in row-major order over
    [nrows] x [ncols], that holds [symbol]. *)
Definition first_occurrence (g : list (list string)) (nrows ncols : Z)
    (symbol : string) (pos : Cell) : Prop :=
  0 <= pos.1 < nrows ∧ 0 <= pos.2 < ncols ∧
  grid_at g pos.1 pos.2 = Ok symbol ∧
  ∀ p', 0 <= p'.1 < nrows → 0 <= p'.2 < ncols → scanned_before p' pos →
        ∃ x, grid_at g p'.1 p'.2 = Ok x ∧ x ≠ symbol.

(** The two cells differ by exactly one unit in exactly one coordinate. *)
Definition adjacent (p q : Cell) : Prop :=
  (p.1 = q.1 ∧ Z.abs (p.2 - q.2) = 1) ∨ (p.2 = q.2 ∧ Z.abs (p.1 - q.1) = 1).

(** The four cells one orthogonal step away: up, down, left, right. *)
Definition around (pos : Cell) : list Cell :=
  [(pos.1 - 1, pos.2); (pos.1 + 1, pos.2); (pos.1, pos.2 - 1); (pos.1, pos.2 + 1)].

(** The cell is within bounds and its marker is not the wall. *)
Definition passable (self : MazeGrid) (pos : Cell) : Prop :=
  0 <= pos.1 < rows self ∧ 0 <= pos.2 < cols self ∧
  ∃ x, grid_at (grid self) pos.1 pos.2 = Ok x ∧ x ≠ "#".

(** One move of the search: [q] is returned among the neighbours of [p]. *)
Definition move (self : MazeGrid) (p q : Cell) : Prop :=
  ∃ ns, get_neighbors self p = Ok ns ∧ q ∈ ns.

Definition reachable (self : MazeGrid) (p q : Cell) : Prop :=
  rtc (move self) p q.

(** Every two consecutive elements of the list are related by [P]. *)
Fixpoint linked (P : Cell → Cell → Prop) (l : list Cell) : Prop :=
  match l with
  | [] => True
  | a :: t => match t with
              | [] => True
              | b :: _ => P a b ∧ linked P t
              end
  end.

(** A route of the maze from [p] to [q]: it starts at [p], ends at [q],
    and every step is a move. *)
Definition route (self : MazeGrid) (p q : Cell) (path : list Cell) : Prop :=
  head path = Some p ∧ last path = Some q ∧ linked (move self) path.

(** Reference breadth-first search: the cells at distance [d] from the start
    are [frontier]; the next layer is their neighbours not seen yet. *)
Definition neighbors_or_nil (self : MazeGrid) (p : Cell) : list Cell :=
  match get_neighbors self p with
  | Ok ns => ns
  | _ => []
  end.

Fixpoint next_layer (self : MazeGrid) (frontier : list Cell)
    (visited : gset Cell) : list Cell * gset Cell :=
  match frontier with
  | [] => ([], visited)
  | p :: rest =>
      let fresh := filter (λ q, q ∉ visited)
                     (remove_dups (neighbors_or_nil self p)) in
      let '(l, v) := next_layer self rest (visited ∪ list_to_set fresh) in
      (fresh ++ l, v)
  end.

Fixpoint bfs_layers (fuel : nat) (self : MazeGrid) (frontier : list Cell)
    (visited : gset Cell) (d : Z) : option Z :=
  match fuel with
  | O => None
  | S fuel' =>
      if decide (goal self ∈ frontier) then Some d
      else match frontier with
           | [] => None
           | _ => let '(l, v) := next_layer self frontier visited in
                  bfs_layers fuel' self l v (d + 1)
           end
  end.

(** Shortest-path distance from start to goal, [None] when there is none. *)
Definition bfs_distance (self : MazeGrid) : option Z :=
  bfs_layers (S (Z.to_nat (rows self * cols self))) self
             [start self] {[ start self ]} 0.

(** The cells of the [rows] x [cols] rectangle, row by row. *)
Definition all_cells (self : MazeGrid) : list Cell :=
  r ← seqZ 0 (rows self); (λ c, (r, c)) <$> seqZ 0 (cols self).

(** ** Invariant and measure of the search loop *)

(** What holds of the tables at every point of a run:
    the start keeps cost 0 and no predecessor; every known cost is a
    number of steps below the number of cells that have one; a predecessor
    link is a move of the maze along which the cost drops; the cells with a
    cost are the start and the cells with a predecessor, all passable; and
    every queued cell has a cost. *)
Record search_inv (maze : MazeGrid) (st : astate) : Prop := {
  inv_start_g : g_score st !! start maze = Some 0;
  inv_g_bound : ∀ n v, g_score st !! n = Some v →
                  0 <= v < Z.of_nat (size (g_score st));
  inv_start_cf : came_from st !! start maze = None;
  inv_link : ∀ n p, came_from st !! n = Some p →
               move maze p n ∧
               ∃ gn gp, g_score st !! n = Some gn ∧ g_score st !! p = Some gp ∧
                        gp < gn;
  inv_dom : ∀ n, is_Some (g_score st !! n) →
              n = start maze ∨ is_Some (came_from st !! n);
  inv_size : size (g_score st) = S (size (came_from st));
  inv_pass : ∀ n, is_Some (g_score st !! n) → passable maze n;
  inv_open : ∀ e, e ∈ open_set st → is_Some (g_score st !! e.2)
}.

(** A cell without a cost weighs as much as there are cells. *)
Definition weight (big : Z) (o : option Z) : Z :=
  match o with
  | Some v => v
  | None => big
  end.

Definition total (big : Z) (g : gmap Cell Z) (l : list Cell) : Z :=
  foldr (λ c acc, weight big (g !! c) + acc) 0 l.

Definition potential (maze : MazeGrid) (g : gmap Cell Z) : Z :=
  total (len (all_cells maze)) g (all_cells maze).

(** It drops by one at least in every round of the [while] loop. *)
Definition measure (maze : MazeGrid) (st : astate) : Z :=
  2 * potential maze (g_score st) + len (open_set st).

(** The states at the head of the [while] loop in the run on [maze]. *)
Inductive loop_head (maze : MazeGrid) : astate → Prop :=
| lh_init : loop_head maze (init_state maze)
| lh_next st st' :
    loop_head maze st →
    a_star_step maze st = Ok (Continue st') →
    loop_head maze st'.

(** The states inside the [for neighbor] loop: some neighbours, [done],
    of the popped cell have been handled. *)
Definition inside_for (maze : MazeGrid) (st : astate) : Prop :=
  ∃ st0 f k current open_set' done todo,
    loop_head maze st0 ∧
    heappop (open_set st0) = Some ((f, k, current), open_set') ∧
    current ≠ goal maze ∧
    get_neighbors maze current = Ok (done ++ todo) ∧
    st = expand maze current (popped st0 open_set' current) done.

Definition during_run (maze : MazeGrid) (st : astate) : Prop :=
  loop_head maze st ∨ inside_for maze st.

(** The state at the head of the [while] loop after [n] rounds, when the
    search has not returned or raised before. *)
Fixpoint run_rounds (n : nat) (maze : MazeGrid) (st : astate)
    : option astate :=
  match n with
  | O => Some st
  | S n' =>
      match a_star_step maze st with
      | Ok (Continue st') => run_rounds n' maze st'
      | _ => None
      end
  end.

(** ** Mazes used as examples *)

(** The 3 x 3 scenario of the specification. *)
Definition maze_3x3 : list (list string) :=
  maze_of_rows ["S #"; "# #"; "# G"].


(** Start and goal next to each other. *)
Definition maze_SG : list (list string) := maze_of_rows ["SG"].

(** A marker outside the alphabet. *)
Definition maze_unknown_marker : list (list string) := maze_of_rows ["SxG"].

(** Start and goal markers that occur twice. *)
Definition maze_duplicates : list (list string) :=
  maze_of_rows [" GS"; "SG "].

(** The first start marker in the second row, and a second one after it. *)
Definition maze_second_row : list (list string) := maze_of_rows ["G "; "SS"].

(** A grid state whose start cell is its goal cell. *)
Definition maze_same_cell : MazeGrid := mkMazeGrid [["S"]] 1 1 (0, 0) (0, 0).

(** A 4 x 8 maze with a route of 11 steps along the bottom row and a
    longer one of 13 steps along the top row. *)
Definition maze_detour : list (list string) :=
  maze_of_rows ["##    #G";
                "   ## # ";
                "S#  #   ";
                "      ##"].

Definition short_route : list Cell :=
  [(2, 0); (3, 0); (3, 1); (3, 2); (3, 3); (3, 4); (3, 5); (2, 5); (2, 6);
   (2, 7); (1, 7); (0, 7)].

Definition long_route : list Cell :=
  [(2, 0); (1, 0); (1, 1); (1, 2); (0, 2); (0, 3); (0, 4); (0, 5); (1, 5);
   (2, 5); (2, 6); (2, 7); (1, 7); (0, 7)].

(** [built g] is the grid object that [MazeGrid(g)] gives; when the
    construction raises, it is a grid object with no cell. *)
Definition built (g : list (list string)) : MazeGrid :=
  match MazeGrid_init g with
  | Ok m => m
  | _ => mkMazeGrid [] 0 0 (0, 0) (0, 0)
  end.

(** Decidable form of [linked (move maze)], for concrete routes. *)
Fixpoint linked_moves (maze : MazeGrid) (l : list Cell) : bool :=
  match l with
  | [] => true
  | a :: t => match t with
              | [] => true
              | b :: _ => bool_decide (b ∈ neighbors_or_nil maze a) &&
                          linked_moves maze t
              end
  end.

(** ** The frontier *)

(** The cells that have an entry in the queue, and the sequence numbers
    of the entries. *)
Definition queued_cells (h : list entry) : list Cell := (λ e, e.2) <$> h.
Definition queued_counters (h : list entry) : list Z := (λ e, e.1.2) <$> h.

(** How the queue, the marker set and the two cost tables go together at
    every point of a run. *)
Record frontier_inv (maze : MazeGrid) (st : astate) : Prop := {
  fr_hash : ∀ c, c ∈ open_set_hash st ↔ c ∈ queued_cells (open_set st);
  fr_nodup : NoDup (queued_cells (open_set st));
  fr_counter_nonneg : 0 <= counter st;
  fr_counter : ∀ k, k ∈ queued_counters (open_set st) → 0 <= k <= counter st;
  fr_counters_nodup : NoDup (queued_counters (open_set st));
  fr_fscore : ∀ c, f_score st !! c =
                (λ v, v + manhattan_distance c (goal maze)) <$> g_score st !! c;
  fr_priority : ∀ e, e ∈ open_set st →
                  e = (0, 0, start maze) ∨
                  ∃ v, g_score st !! e.2 = Some v ∧
                       v + manhattan_distance e.2 (goal maze) <= e.1.1
}.

(** Every cell with a cost is queued, or is the cell [current] being
    expanded, or is a cell other than the goal all of whose neighbours have
    a cost. *)
Definition settled (maze : MazeGrid) (st : astate) (current : option Cell)
    : Prop :=
  ∀ c, is_Some (g_score st !! c) →
       c ∈ queued_cells (open_set st) ∨ Some c = current ∨
       (c ≠ goal maze ∧ ∀ q, move maze c q → is_Some (g_score st !! q)).

(** The state at the head of the loop after [n] rounds of the search on
    the grid built from [g]; the state before the loop when the search has
    ended earlier. *)
Definition state_after (n : nat) (g : list (list string)) : astate :=
  default (init_state (built g))
          (run_rounds n (built g) (init_state (built g))).

(** Every cost in the table is the number of steps of a route of the maze
    from the start to the cell. *)
Definition costs_are_routes (maze : MazeGrid) (st : astate) : Prop :=
  ∀ c v, g_score st !! c = Some v →
         ∃ path, route maze (start maze) c path ∧
                 Z.of_nat (length path) - 1 = v.

(** Along the list the cost drops strictly. *)
Definition lower (st : astate) (a b : Cell) : Prop :=
  ∃ ga gb, g_score st !! a = Some ga ∧ g_score st !! b = Some gb ∧ gb < ga.

(** ** The console functions

    [get_maze_dimensions] and [create_custom_maze] read lines with
    [input()]; the lines still to be read are the list [stdin], and
    [input()] at its end raises [EOFError].  A line, a Python [str], is
    the list of its characters, each one a one-character string as
    [list(line)] gives them: so [len(line)] is the length of the list and
    [list(line)] is the list itself, whatever the characters are.  What
    the two functions print is left out: the models give what they
    return. *)

Abbreviation line := (list string).

Section Console.
(** [int(s)]: [None] when [int] raises [ValueError]. *)
Variable py_int : line → option Z.

(** [get_maze_dimensions]: the dimensions and the lines left, or [None]
    when [input()] raises [EOFError], which the function does not catch.
    A line that [int] refuses ends the round at once. *)
Fixpoint get_maze_dimensions (stdin : list line)
    : option (Z * Z * list line) :=
  match stdin with
  | [] => None
  | line1 :: stdin1 =>
      match py_int line1 with
      | None => get_maze_dimensions stdin1
      | Some nrows =>
          match stdin1 with
          | [] => None
          | line2 :: stdin2 =>
              match py_int line2 with
              | None => get_maze_dimensions stdin2
              | Some ncols =>
                  if (0 <? nrows) && (0 <? ncols)
                  then Some (nrows, ncols, stdin2)
                  else get_maze_dimensions stdin2
              end
          end
      end
  end.

(** The [while True] loop that reads one row: lines of another length
    than [ncols] are refused; the row is [list(row_input)]. *)
Fixpoint read_row (ncols : Z) (stdin : list line)
    : option (list string * list line) :=
  match stdin with
  | [] => None
  | row_input :: stdin' =>
      if len row_input =? ncols
      then Some (row_input, stdin')
      else read_row ncols stdin'
  end.

(** The [for r in range(rows)] loop, with [n] rows left to read. *)
Fixpoint read_rows (n : nat) (ncols : Z) (stdin : list line)
    (maze : list (list string)) : option (list (list string) * list line) :=
  match n with
  | O => Some (maze, stdin)
  | S n' =>
      match read_row ncols stdin with
      | None => None
      | Some (row, stdin') => read_rows n' ncols stdin' (maze ++ [row])
      end
  end.

(** [create_custom_maze]: the maze, or [None], which it returns when a
    marker is missing and when an exception was raised. *)
Definition create_custom_maze (stdin : list line)
    : option (list (list string)) :=
  match get_maze_dimensions stdin with
  | None => None
  | Some (nrows, ncols, stdin') =>
      match read_rows (Z.to_nat nrows) ncols stdin' [] with
      | None => None
      | Some (maze, _) =>
          let flat_maze := concat maze in
          if bool_decide ("S" ∉ flat_maze) || bool_decide ("G" ∉ flat_maze)
          then None
          else Some maze
      end
  end.
End Console.

(** A stand-in for [int] in the examples: it reads the numbers 1 to 3. *)
Definition small_int (s : line) : option Z :=
  if decide (s = ["1"]) then Some 1
  else if decide (s = ["2"]) then Some 2
  else if decide (s = ["3"]) then Some 3
  else None.

(** Lines typed at the console in the examples: a line that is no
    number, the dimensions 1 and 3, a row that is too short, a row. *)
Definition typed_lines : list line :=
  [["x"]; ["1"]; ["3"]; ["S"; "G"]; ["S"; "é"; "G"]].

(** ** [visualize_maze]

    [print] writes to the console; the model collects the text in a
    string, each [print] adding its argument and its [end].  The function
    returns nothing: the model gives the whole text when the function
    runs to its end, and the exception when a statement raises. *)

(** [l[i] = x] of Python. *)
Definition py_setitem {A : Type} (l : list A) (i : Z) (x : A) : res (list A) :=
  let n := Z.of_nat (length l) in
  let j := if i <? 0 then i + n else i in
  if (0 <=? j) && (j <? n) then Ok (<[Z.to_nat j := x]> l)
  else Raise IndexError.

(** [visual_grid[row][col] = '*']: the row is fetched, then changed in
    place. *)
Definition mark_cell (visual_grid : list (list string)) (pos : Cell)
    : res (list (list string)) :=
  let '(row, col) := pos in
  let* r := py_index visual_grid row in
  let* r' := py_setitem r col "*" in
  py_setitem visual_grid row r'.

Fixpoint mark_cells (visual_grid : list (list string)) (cells : list Cell)
    : res (list (list string)) :=
  match cells with
  | [] => Ok visual_grid
  | pos :: cells' =>
      let* vg := mark_cell visual_grid pos in mark_cells vg cells'
  end.

(** [path[1:-1]] *)
Definition interior (path : list Cell) : list Cell :=
  take (length path - 2) (drop 1 path).

(** The first part of [visualize_maze(maze, path)]: [visual_grid], a copy
    of [maze.grid] row by row, with ['*'] written on [path[1:-1]] when
    [path] is neither [None] nor empty. *)
Definition visual_grid (maze : MazeGrid) (path : option (list Cell))
    : res (list (list string)) :=
  match path with
  | None => Ok (grid maze)
  | Some [] => Ok (grid maze)
  | Some l => mark_cells (grid maze) (interior l)
  end.

(** The colour codes of [visualize_maze]; [ESC] is the character 27. *)
Definition ESC : string := String (Ascii.ascii_of_nat 27) EmptyString.
Definition NL : string := String (Ascii.ascii_of_nat 10) EmptyString.
Definition RESET : string := ESC +:+ "[0m".
Definition GREEN : string := ESC +:+ "[92m".
Definition RED : string := ESC +:+ "[91m".
Definition YELLOW : string := ESC +:+ "[93m".
Definition BLUE : string := ESC +:+ "[94m".
Definition WHITE : string := ESC +:+ "[97m".

(** [s * n] of Python on a string, for [n] that is not negative. *)
Fixpoint repeat_str (s : string) (n : nat) : string :=
  match n with
  | O => ""
  | S n' => s +:+ repeat_str s n'
  end.

(** ["=" * (maze.cols * 2 + 3)]; a negative factor gives the empty string. *)
Definition rule (maze : MazeGrid) : string :=
  repeat_str "=" (Z.to_nat (cols maze * 2 + 3)).

(** What is printed for one cell, without the [end=" "]. *)
Definition render_cell (cell : string) : string :=
  if decide (cell = "S") then GREEN +:+ "S" +:+ RESET
  else if decide (cell = "G") then RED +:+ "G" +:+ RESET
  else if decide (cell = "#") then BLUE +:+ "#" +:+ RESET
  else if decide (cell = "*") then YELLOW +:+ "*" +:+ RESET
  else WHITE +:+ "." +:+ RESET.

(** The [for c in range(maze.cols)] loop: [out] is the text printed so
    far; the read [visual_grid[r][c]] can raise. *)
Fixpoint print_row (vg : list (list string)) (r c : Z) (n : nat)
    (out : string) : res string :=
  match n with
  | O => Ok out
  | S n' =>
      let* cell := grid_at vg r c in
      print_row vg r (c + 1) n' (out +:+ render_cell cell +:+ " ")
  end.

(** The [for r in range(maze.rows)] loop. *)
Fixpoint print_rows (vg : list (list string)) (ncols : nat) (r : Z) (n : nat)
    (out : string) : res string :=
  match n with
  | O => Ok out
  | S n' =>
      let* out1 := print_row vg r 0 ncols (out +:+ " ") in
      print_rows vg ncols (r + 1) n' (out1 +:+ NL)
  end.

Definition legend : string :=
  NL +:+ "Legend:" +:+ NL +:+
  "  " +:+ GREEN +:+ "S" +:+ RESET +:+ " = Start" +:+ NL +:+
  "  " +:+ RED +:+ "G" +:+ RESET +:+ " = Goal" +:+ NL +:+
  "  " +:+ BLUE +:+ "#" +:+ RESET +:+ " = Wall/Obstacle" +:+ NL +:+
  "  " +:+ YELLOW +:+ "*" +:+ RESET +:+ " = Solution Path" +:+ NL +:+
  "  " +:+ WHITE +:+ "." +:+ RESET +:+ " = Open Space" +:+ NL.

(** [visualize_maze(maze, path)]: the text it prints when it runs to its
    end, or the exception it raises (the text printed before an exception
    is not kept). *)
Definition visualize_maze (maze : MazeGrid) (path : option (list Cell))
    : res string :=
  let* vg := visual_grid maze path in
  let header := NL +:+ rule maze +:+ NL +:+
                " MAZE SOLVER - A* SEARCH ALGORITHM" +:+ NL +:+
                rule maze +:+ NL in
  let* body := print_rows vg (Z.to_nat (cols maze)) 0 (Z.to_nat (rows maze))
                 header in
  Ok (body +:+ rule maze +:+ NL +:+ legend).

(** ** What [visualize_maze] prints, line by line

    The text is described from the cells that are shown: [shown (r, c)]
    is the cell of row [r] and column [c] of the marked copy. *)
Definition concat_str (l : list string) : string := foldr String.append "" l.

(** One line of the maze: a space, then each cell in its colour followed
    by a space, then the end of the line. *)
Definition row_text (ncols : Z) (shown : Cell → string) (r : Z) : string :=
  " " +:+
  concat_str ((λ c, render_cell (shown (r, c)) +:+ " ") <$> seqZ 0 ncols) +:+
  NL.

Definition maze_text (maze : MazeGrid) (shown : Cell → string) : string :=
  NL +:+ rule maze +:+ NL +:+
  " MAZE SOLVER - A* SEARCH ALGORITHM" +:+ NL +:+
  rule maze +:+ NL +:+
  concat_str (row_text (cols maze) shown <$> seqZ 0 (rows maze)) +:+
  rule maze +:+ NL +:+ legend.

(** A matrix whose second row is shorter than the first one. *)
Definition maze_ragged : list (list string) :=
  [["S"; " "; "G"]; ["#"; "#"]].

(** * Properties *)

Arguments is_valid : simpl never.
Arguments grid_at : simpl never.
Arguments get_neighbors : simpl never.
Arguments reconstruct_path : simpl never.
Arguments relax : simpl never.

(** ** Indexing and scanning *)

Section Indexing.
Context {A : Type}.
Implicit Types (l : list A) (i : Z).

Lemma py_index_nonneg l i x :
  0 <= i → py_index l i = Ok x ↔ l !! Z.to_nat i = Some x.
Proof.
  intros Hi. unfold py_index.
  destruct (Z.ltb_spec i 0) as [|_]; [lia|].
  destruct (Z.leb_spec 0 i) as [_|]; [|lia].
  destruct (Z.ltb_spec i (Z.of_nat (length l))) as [Hlt|Hge]; simpl.
  - destruct (l !! Z.to_nat i) eqn:E; split; congruence.
  - split; [discriminate|].
    intros Hl. apply lookup_lt_Some in Hl. lia.
Qed.

Lemma py_index_in_range l i :
  0 <= i < len l → ∃ x, py_index l i = Ok x.
Proof.
  unfold len. intros Hi.
  destruct (lookup_lt_is_Some_2 l (Z.to_nat i)) as [x Hx]; [lia|].
  exists x. apply py_index_nonneg; [lia|done].
Qed.
End Indexing.

Lemma grid_at_nonneg g r c x :
  0 <= r → 0 <= c →
  grid_at g r c = Ok x ↔
  ∃ row, g !! Z.to_nat r = Some row ∧ row !! Z.to_nat c = Some x.
Proof.
  intros Hr Hc. unfold grid_at, res_bind. split.
  - destruct (py_index g r) as [row| |] eqn:E; try discriminate.
    intros Hx. exists row. split.
    + by apply py_index_nonneg in E.
    + by apply py_index_nonneg in Hx.
  - intros (row & Hrow & Hx).
    apply (py_index_nonneg g r row Hr) in Hrow. rewrite Hrow.
    apply py_index_nonneg; done.
Qed.

Lemma rectangular_grid_at g r c :
  rectangular g → 0 <= r < len g → 0 <= c < width g →
  ∃ x, grid_at g r c = Ok x.
Proof.
  intros Hrect Hr Hc. unfold len in Hr.
  destruct (lookup_lt_is_Some_2 g (Z.to_nat r)) as [row Hrow]; [lia|].
  assert (length row = length (hd [] g)) as Hlen.
  { apply Hrect. eapply list_elem_of_lookup_2, Hrow. }
  unfold width, len in Hc.
  destruct (lookup_lt_is_Some_2 row (Z.to_nat c)) as [x Hx]; [lia|].
  exists x. apply grid_at_nonneg; [lia..|]. eauto.
Qed.

(** What [find_in_row] has seen when it returns. *)
Lemma find_in_row_sound g symbol r n : ∀ c res,
  find_in_row g symbol r c n = Ok res →
  match res with
  | Some p => p.1 = r ∧ c <= p.2 < c + Z.of_nat n ∧
              grid_at g r p.2 = Ok symbol ∧
              ∀ j, c <= j < p.2 → ∃ x, grid_at g r j = Ok x ∧ x ≠ symbol
  | None => ∀ j, c <= j < c + Z.of_nat n →
                 ∃ x, grid_at g r j = Ok x ∧ x ≠ symbol
  end.
Proof.
  induction n as [|n IH]; intros c res; simpl.
  - intros [= <-]. intros j Hj. lia.
  - unfold res_bind. destruct (grid_at g r c) as [x| |] eqn:E; try discriminate.
    destruct (decide (x = symbol)) as [->|Hne].
    + intros [= <-]. simpl. split_and!; [lia..|done|]. intros j Hj. lia.
    + intros Hrec. apply IH in Hrec. destruct res as [p|].
      * destruct Hrec as (H1 & H2 & H3 & H4). split_and!; [lia..|done|].
        intros j Hj. destruct (decide (j = c)) as [->|]; [eauto|].
        apply H4. lia.
      * intros j Hj. destruct (decide (j = c)) as [->|]; [eauto|].
        apply Hrec. lia.
Qed.

Lemma find_in_row_total g symbol r n : ∀ c,
  (∀ j, c <= j < c + Z.of_nat n → ∃ x, grid_at g r j = Ok x) →
  ∃ res, find_in_row g symbol r c n = Ok res.
Proof.
  induction n as [|n IH]; intros c Hall; simpl; [eauto|].
  destruct (Hall c) as [x Hx]; [lia|]. rewrite Hx. simpl.
  destruct (decide (x = symbol)); [eauto|].
  apply IH. intros j Hj. apply Hall. lia.
Qed.

Lemma find_in_rows_sound g symbol ncols n : ∀ r res,
  find_in_rows g symbol ncols r n = Ok res →
  match res with
  | Some p => r <= p.1 < r + Z.of_nat n ∧ 0 <= p.2 < Z.of_nat ncols ∧
              grid_at g p.1 p.2 = Ok symbol ∧
              ∀ p', r <= p'.1 → 0 <= p'.2 < Z.of_nat ncols →
                    scanned_before p' p →
                    ∃ x, grid_at g p'.1 p'.2 = Ok x ∧ x ≠ symbol
  | None => ∀ p', r <= p'.1 < r + Z.of_nat n → 0 <= p'.2 < Z.of_nat ncols →
                  ∃ x, grid_at g p'.1 p'.2 = Ok x ∧ x ≠ symbol
  end.
Proof.
  induction n as [|n IH]; intros r res; simpl.
  - intros [= <-]. intros p' Hp'. lia.
  - unfold res_bind.
    destruct (find_in_row g symbol r 0 ncols) as [o| |] eqn:E; try discriminate.
    apply find_in_row_sound in E. destruct o as [p|].
    + intros [= <-]. destruct E as (H1 & H2 & H3 & H4).
      rewrite H1. split_and!; [lia..|done|].
      intros p' Hr Hc [Hlt|[Heq Hlt]]; [lia|].
      rewrite Heq, H1. apply H4. lia.
    + intros Hrec. apply IH in Hrec. destruct res as [p|].
      * destruct Hrec as (H1 & H2 & H3 & H4). split_and!; [lia..|done|].
        intros p' Hr Hc Hbefore.
        destruct (decide (p'.1 = r)) as [->|]; [apply E; lia|].
        apply H4; [lia|done..].
      * intros p' Hr Hc.
        destruct (decide (p'.1 = r)) as [->|]; [apply E; lia|].
        apply Hrec; [lia|done].
Qed.

Lemma find_in_rows_total g symbol ncols n : ∀ r,
  (∀ r' c', r <= r' < r + Z.of_nat n → 0 <= c' < Z.of_nat ncols →
            ∃ x, grid_at g r' c' = Ok x) →
  ∃ res, find_in_rows g symbol ncols r n = Ok res.
Proof.
  induction n as [|n IH]; intros r Hall; simpl; [eauto|].
  destruct (find_in_row_total g symbol r ncols 0) as [o Ho].
  { intros j Hj. apply Hall; lia. }
  rewrite Ho. simpl. destruct o; [eauto|].
  apply IH. intros r' c' Hr' Hc'. apply Hall; lia.
Qed.

(** [_find_position] returns the first occurrence, or [None] when the
    scanned rectangle has no occurrence. *)
Lemma find_position_sound g nrows ncols symbol res :
  _find_position g nrows ncols symbol = Ok res →
  match res with
  | Some p => first_occurrence g nrows ncols symbol p
  | None => ∀ p', 0 <= p'.1 < nrows → 0 <= p'.2 < ncols →
                  ∃ x, grid_at g p'.1 p'.2 = Ok x ∧ x ≠ symbol
  end.
Proof.
  unfold _find_position. intros H. apply find_in_rows_sound in H.
  destruct res as [p|].
  - destruct H as (H1 & H2 & H3 & H4). unfold first_occurrence.
    split_and!; [lia..|done|].
    intros p' Hr Hc Hb. apply H4; [lia|lia|done].
  - intros p' Hr Hc. apply H; lia.
Qed.

Lemma find_position_total g symbol :
  rectangular g → ∃ res, _find_position g (len g) (width g) symbol = Ok res.
Proof.
  intros Hrect. apply find_in_rows_total.
  intros r' c' Hr' Hc'. apply rectangular_grid_at; [done|lia|lia].
Qed.

Lemma init_width g :
  match g with [] => 0 | row0 :: _ => len row0 end = width g.
Proof. by destruct g. Qed.

(** In a rectangular matrix the markers that occur are those that the
    scan can meet. *)
Lemma occurs_grid_at g symbol :
  rectangular g →
  occurs symbol g ↔
  ∃ p, 0 <= p.1 < len g ∧ 0 <= p.2 < width g ∧ grid_at g p.1 p.2 = Ok symbol.
Proof.
  intros Hrect. unfold occurs, len, width. split.
  - intros (row & Hrow & Hsym).
    apply list_elem_of_lookup in Hrow as [i Hi].
    apply list_elem_of_lookup in Hsym as [j Hj].
    exists (Z.of_nat i, Z.of_nat j). simpl.
    pose proof (lookup_lt_Some _ _ _ Hi). pose proof (lookup_lt_Some _ _ _ Hj).
    assert (length row = length (hd [] g)) as Hlen.
    { apply Hrect. eapply list_elem_of_lookup_2, Hi. }
    unfold len. split_and!; [lia..|].
    apply grid_at_nonneg; [lia..|]. rewrite !Nat2Z.id. eauto.
  - intros ([r c] & Hr & Hc & Hat). simpl in *.
    apply grid_at_nonneg in Hat as (row & Hrow & Hx); [|lia..].
    exists row. split; eapply list_elem_of_lookup_2; eauto.
Qed.

(** ** Construction *)

Lemma init_ok g m :
  MazeGrid_init g = Ok m →
  grid m = g ∧ rows m = len g ∧ cols m = width g ∧
  first_occurrence g (len g) (width g) "S" (start m) ∧
  first_occurrence g (len g) (width g) "G" (goal m).
Proof.
  unfold MazeGrid_init. rewrite init_width. unfold res_bind.
  destruct (_find_position g (len g) (width g) "S") as [os| |] eqn:ES;
    try discriminate.
  destruct (_find_position g (len g) (width g) "G") as [og| |] eqn:EG;
    try discriminate.
  destruct os as [s|]; [|discriminate]. destruct og as [t|]; [|discriminate].
  intros [= <-]. simpl.
  apply find_position_sound in ES. apply find_position_sound in EG. done.
Qed.

Lemma init_well_formed g m :
  rectangular g → MazeGrid_init g = Ok m → well_formed m.
Proof.
  intros Hrect Hm. apply init_ok in Hm as (Hg & Hr & Hc & _).
  unfold well_formed. by rewrite Hg.
Qed.

Lemma first_occurrence_passable m symbol p :
  first_occurrence (grid m) (rows m) (cols m) symbol p → symbol ≠ "#" →
  passable m p.
Proof.
  intros (Hr & Hc & Hat & _) Hne. unfold passable. eauto.
Qed.

Lemma init_start_passable g m :
  MazeGrid_init g = Ok m → passable m (start m) ∧ passable m (goal m).
Proof.
  intros Hm. apply init_ok in Hm as (Hg & Hr & Hc & HS & HG).
  subst g. rewrite <- Hr, <- Hc in HS, HG.
  split; eapply first_occurrence_passable; eauto; discriminate.
Qed.

(** ** Passability and neighbours *)

Lemma is_valid_true m p : is_valid m p = Ok true ↔ passable m p.
Proof.
  destruct p as [r c]. unfold is_valid, passable, res_bind. simpl.
  destruct (Z.leb_spec 0 r); destruct (Z.ltb_spec r (rows m));
  destruct (Z.leb_spec 0 c); destruct (Z.ltb_spec c (cols m)); simpl;
    try (split; [discriminate|intros (? & ? & _); lia]).
  destruct (grid_at (grid m) r c) as [x| |] eqn:E.
  - case_bool_decide as Hx; simpl.
    + split; [discriminate|]. intros (_ & _ & y & [= <-] & Hy). done.
    + split; [|done]. intros _. split_and!; [lia..|]. eauto.
  - split; [discriminate|]. intros (_ & _ & y & [=] & _).
  - split; [discriminate|]. intros (_ & _ & y & [=] & _).
Qed.

(** The bounds are checked first: outside them nothing is looked up. *)
Lemma is_valid_out_of_bounds m p :
  ¬ (0 <= p.1 < rows m ∧ 0 <= p.2 < cols m) → is_valid m p = Ok false.
Proof.
  destruct p as [r c]. unfold is_valid. simpl. intros Hout.
  destruct (Z.leb_spec 0 r); destruct (Z.ltb_spec r (rows m));
  destruct (Z.leb_spec 0 c); destruct (Z.ltb_spec c (cols m)); simpl;
    try done.
  exfalso. apply Hout. lia.
Qed.

Lemma is_valid_total m p :
  well_formed m → is_valid m p = Ok true ∨ is_valid m p = Ok false.
Proof.
  intros (Hr & Hc & Hrect).
  destruct (decide (0 <= p.1 < rows m ∧ 0 <= p.2 < cols m)) as [Hin|Hout].
  - destruct (rectangular_grid_at (grid m) p.1 p.2) as [x Hx]; [done|lia..|].
    destruct p as [r c]. unfold is_valid. simpl in *.
    destruct (Z.leb_spec 0 r); [|lia]. destruct (Z.ltb_spec r (rows m)); [|lia].
    destruct (Z.leb_spec 0 c); [|lia]. destruct (Z.ltb_spec c (cols m)); [|lia].
    simpl. rewrite Hx. simpl. case_bool_decide; eauto.
  - right. by apply is_valid_out_of_bounds.
Qed.

Lemma neighbors_loop_sound m r c dirs : ∀ acc ns,
  neighbors_loop m r c dirs acc = Ok ns →
  ns = acc ++ filter (λ q, is_valid m q = Ok true)
                     ((λ d, (r + d.1, c + d.2)) <$> dirs).
Proof.
  induction dirs as [|[dr dc] dirs IH]; intros acc ns; simpl.
  - intros [= <-]. by rewrite app_nil_r.
  - unfold res_bind. destruct (is_valid m (r + dr, c + dc)) as [b| |] eqn:E;
      try discriminate.
    intros Hrec. apply IH in Hrec. rewrite Hrec. rewrite filter_cons.
    destruct b; case_decide; try congruence; [|done].
    by rewrite <- app_assoc.
Qed.

Lemma neighbors_loop_total m r c dirs : ∀ acc,
  (∀ q, is_valid m q = Ok true ∨ is_valid m q = Ok false) →
  ∃ ns, neighbors_loop m r c dirs acc = Ok ns.
Proof.
  induction dirs as [|[dr dc] dirs IH]; intros acc Htot; simpl; [eauto|].
  destruct (Htot (r + dr, c + dc)) as [-> | ->]; simpl; by apply IH.
Qed.

Lemma around_directions (pos : Cell) :
  (λ d : Z * Z, (pos.1 + d.1, pos.2 + d.2)) <$> directions = around pos.
Proof.
  unfold around, directions. simpl. repeat f_equal; lia.
Qed.

Lemma get_neighbors_sound m pos ns :
  get_neighbors m pos = Ok ns →
  ns = filter (λ q, is_valid m q = Ok true) (around pos).
Proof.
  destruct pos as [r c]. unfold get_neighbors. intros H.
  apply neighbors_loop_sound in H. rewrite H. simpl.
  by rewrite <- around_directions.
Qed.

Lemma get_neighbors_total m pos :
  well_formed m → ∃ ns, get_neighbors m pos = Ok ns.
Proof.
  intros Hwf. destruct pos as [r c]. unfold get_neighbors.
  apply neighbors_loop_total. intros q. by apply is_valid_total.
Qed.

Lemma elem_of_around (p q : Cell) : q ∈ around p ↔ adjacent p q.
Proof.
  destruct p as [r c], q as [r' c']. unfold around, adjacent. simpl.
  rewrite !elem_of_cons, elem_of_nil. split.
  - intros [[= -> ->]|[[= -> ->]|[[= -> ->]|[[= -> ->]|[]]]]]; lia.
  - intros [[-> H]|[-> H]].
    + destruct (decide (c' = c - 1)) as [->|]; [by auto|].
      assert (c' = c + 1) as -> by lia. by auto 10.
    + destruct (decide (r' = r - 1)) as [->|]; [by auto|].
      assert (r' = r + 1) as -> by lia. by auto.
Qed.

(** A move goes to a passable cell one orthogonal step away. *)
Lemma move_spec m p q : move m p q → adjacent p q ∧ passable m q.
Proof.
  intros (ns & Hns & Hq). apply get_neighbors_sound in Hns. subst ns.
  apply list_elem_of_filter in Hq as [Hv Ha].
  split; [by apply elem_of_around|by apply is_valid_true].
Qed.

(** ** Claims about the grid *)

(** C5, as the code has it: [MazeGrid.__init__] checks no alphabet.  Over a
    rectangular matrix it raises [ValueError] exactly when the start marker
    or the goal marker does not occur, which is the case of a matrix with
    no row or no column; otherwise it gives the grid object over the
    matrix it was given.  A construction that raises gives no grid object. *)
Theorem init_raises_iff_marker_absent g :
  rectangular g →
  match MazeGrid_init g with
  | Ok m => occurs "S" g ∧ occurs "G" g ∧
            grid m = g ∧ rows m = len g ∧ cols m = width g
  | Raise (ValueError _) =>
      (¬ occurs "S" g ∨ ¬ occurs "G" g)
  | _ => False
  end ∧
  (len g = 0 ∨ width g = 0 → ∃ msg, MazeGrid_init g = Raise (ValueError msg)).
Proof.
  intros Hrect.
  assert (∀ symbol, ¬ occurs symbol g ↔
            _find_position g (len g) (width g) symbol = Ok None) as Habsent.
  { intros symbol. destruct (find_position_total g symbol Hrect) as [o Ho].
    rewrite Ho. pose proof (find_position_sound _ _ _ _ _ Ho) as Hs.
    rewrite (occurs_grid_at _ _ Hrect). destruct o as [p|].
    - split; [|discriminate]. intros Hno. exfalso. apply Hno.
      destruct Hs as (? & ? & ? & _). eauto.
    - split; [done|]. intros _ (p & Hr & Hc & Hat).
      destruct (Hs p Hr Hc) as (x & Hx & Hne). congruence. }
  assert (match MazeGrid_init g with
          | Ok m => occurs "S" g ∧ occurs "G" g ∧
                    grid m = g ∧ rows m = len g ∧ cols m = width g
          | Raise (ValueError _) => (¬ occurs "S" g ∨ ¬ occurs "G" g)
          | _ => False
          end) as Hmain.
  { destruct (MazeGrid_init g) as [m|e|] eqn:E.
    - pose proof (init_ok _ _ E) as (Hg & Hr & Hc & HS & HG).
      split_and!; try done; apply occurs_grid_at; try done.
      + exists (start m). by destruct HS as (? & ? & ? & _).
      + exists (goal m). by destruct HG as (? & ? & ? & _).
    - revert E. unfold MazeGrid_init. rewrite init_width.
      destruct (find_position_total g "S" Hrect) as [os Hos].
      destruct (find_position_total g "G" Hrect) as [og Hog].
      rewrite Hos, Hog. simpl.
      destruct os as [s|]; [destruct og as [t|]|]; intros [= <-];
        [right|left]; by apply Habsent.
    - revert E. unfold MazeGrid_init. rewrite init_width.
      destruct (find_position_total g "S" Hrect) as [os Hos].
      destruct (find_position_total g "G" Hrect) as [og Hog].
      rewrite Hos, Hog. simpl. by destruct os, og. }
  split; [done|]. intros Hempty.
  destruct (MazeGrid_init g) as [m|[msg|]|]; try done; [|eauto].
  destruct Hmain as (HS & _). apply occurs_grid_at in HS; [|done].
  destruct HS as (p & ? & ? & _). lia.
Qed.

Lemma rectangular_unknown_marker : rectangular maze_unknown_marker.
Proof. intros row Hrow. apply list_elem_of_singleton in Hrow. by subst. Qed.

Lemma init_raises_iff_marker_absent_witness :
  rectangular maze_unknown_marker ∧
  MazeGrid_init maze_unknown_marker = Ok (built maze_unknown_marker) ∧
  occurs "S" maze_unknown_marker.
Proof.
  split; [apply rectangular_unknown_marker|]. split; [reflexivity|].
  pose proof (init_raises_iff_marker_absent maze_unknown_marker
                rectangular_unknown_marker) as [H _].
  change (MazeGrid_init maze_unknown_marker)
    with (Ok (built maze_unknown_marker)) in H.
  exact (proj1 H).
Defined.

(** The claim as the specification words it fails: this matrix has a
    marker outside the alphabet, and the construction accepts it. *)
Lemma init_accepts_unknown_marker :
  malformed maze_unknown_marker ∧
  ∃ m, MazeGrid_init maze_unknown_marker = Ok m.
Proof.
  split.
  - left. exists "x". split.
    + unfold maze_unknown_marker. simpl. set_solver.
    + unfold alphabet. rewrite !elem_of_cons, elem_of_nil.
      intros [?|[?|[?|[?|[]]]]]; discriminate.
  - by eexists.
Qed.

Lemma find_in_row_complete g symbol r c' n : ∀ c,
  c <= c' < c + Z.of_nat n → grid_at g r c' = Ok symbol →
  (∀ j, c <= j < c' → ∃ x, grid_at g r j = Ok x ∧ x ≠ symbol) →
  find_in_row g symbol r c n = Ok (Some (r, c')).
Proof.
  induction n as [|n IH]; intros c Hc Hat Hbefore; simpl; [lia|].
  destruct (decide (c = c')) as [->|Hne].
  - rewrite Hat. simpl. by rewrite decide_True.
  - destruct (Hbefore c) as (x & Hx & Hx'); [lia|]. rewrite Hx. simpl.
    rewrite decide_False by done. apply IH; [lia|done|].
    intros j Hj. apply Hbefore. lia.
Qed.

Lemma find_in_row_absent g symbol r n : ∀ c,
  (∀ j, c <= j < c + Z.of_nat n → ∃ x, grid_at g r j = Ok x ∧ x ≠ symbol) →
  find_in_row g symbol r c n = Ok None.
Proof.
  induction n as [|n IH]; intros c Hall; simpl; [done|].
  destruct (Hall c) as (x & Hx & Hx'); [lia|]. rewrite Hx. simpl.
  rewrite decide_False by done. apply IH. intros j Hj. apply Hall. lia.
Qed.

Lemma find_in_rows_complete g symbol ncols (p : Cell) n : ∀ r,
  r <= p.1 < r + Z.of_nat n → 0 <= p.2 < Z.of_nat ncols →
  grid_at g p.1 p.2 = Ok symbol →
  (∀ p' : Cell, r <= p'.1 → 0 <= p'.2 < Z.of_nat ncols →
     scanned_before p' p → ∃ x, grid_at g p'.1 p'.2 = Ok x ∧ x ≠ symbol) →
  find_in_rows g symbol ncols r n = Ok (Some p).
Proof.
  destruct p as [pr pc]. simpl.
  induction n as [|n IH]; intros r Hr Hc Hat Hbefore; simpl; [lia|].
  destruct (decide (r = pr)) as [->|Hne].
  - rewrite (find_in_row_complete g symbol pr pc ncols 0); [done|lia|done|].
    intros j Hj. apply (Hbefore (pr, j)); simpl; [lia|lia|].
    right. simpl. lia.
  - rewrite find_in_row_absent.
    + simpl. apply IH; [lia|done|done|].
      intros p' Hp' Hc' Hb. apply Hbefore; [lia|done|done].
    + intros j Hj. apply (Hbefore (r, j)); simpl; [lia|lia|].
      left. simpl. lia.
Qed.

(** [_find_position] finds the first occurrence, whatever comes after it. *)
Lemma find_position_complete g nrows ncols symbol p :
  first_occurrence g nrows ncols symbol p →
  _find_position g nrows ncols symbol = Ok (Some p).
Proof.
  intros (Hr & Hc & Hat & Hbefore). unfold _find_position.
  apply find_in_rows_complete; [lia|lia|done|].
  intros p' Hr' Hc' Hb. apply Hbefore; [|lia|done].
  destruct Hb as [Hb|[Hb _]]; lia.
Qed.

(** A rectangular matrix that holds both markers is accepted. *)
Lemma init_accepts g :
  rectangular g → occurs "S" g → occurs "G" g → ∃ m, MazeGrid_init g = Ok m.
Proof.
  intros Hrect HS HG. unfold MazeGrid_init. rewrite init_width.
  destruct (find_position_total g "S" Hrect) as [os Hos].
  destruct (find_position_total g "G" Hrect) as [og Hog].
  rewrite Hos, Hog. simpl.
  apply find_position_sound in Hos. apply find_position_sound in Hog.
  apply occurs_grid_at in HS as (ps & ? & ? & HatS); [|done].
  apply occurs_grid_at in HG as (pg & ? & ? & HatG); [|done].
  destruct os as [s|].
  2:{ destruct (Hos ps) as (x & Hx & Hne); [done..|]. congruence. }
  destruct og as [t|]; [eauto|].
  destruct (Hog pg) as (x & Hx & Hne); [done..|]. congruence.
Qed.

(** C8: whenever the matrix has a first cell in row-major order that holds
    ['S'] and a first cell that holds ['G'], [MazeGrid(g)] succeeds and takes
    these two cells as start and goal, whatever stands in the cells scanned
    later: further occurrences are ignored and do not make the construction
    fail.  Whenever [MazeGrid(g)] succeeds, its start and its goal are
    these first occurrences.  And a rectangular matrix in which ['S'] and
    ['G'] occur, any number of times, has such first cells: its
    construction succeeds with them as start and goal. *)
Theorem init_takes_first_occurrence g :
  (∀ s t,
     first_occurrence g (len g) (width g) "S" s →
     first_occurrence g (len g) (width g) "G" t →
     MazeGrid_init g = Ok (mkMazeGrid g (len g) (width g) s t)) ∧
  (∀ m,
     MazeGrid_init g = Ok m →
     first_occurrence g (rows m) (cols m) "S" (start m) ∧
     first_occurrence g (rows m) (cols m) "G" (goal m)) ∧
  (rectangular g → occurs "S" g → occurs "G" g →
   ∃ s t,
     first_occurrence g (len g) (width g) "S" s ∧
     first_occurrence g (len g) (width g) "G" t ∧
     MazeGrid_init g = Ok (mkMazeGrid g (len g) (width g) s t)).
Proof.
  split; [|split].
  - intros s t HS HG. unfold MazeGrid_init. rewrite init_width.
    rewrite (find_position_complete _ _ _ _ _ HS).
    by rewrite (find_position_complete _ _ _ _ _ HG).
  - intros m Hm. apply init_ok in Hm as (Hg & Hr & Hc & HS & HG).
    by rewrite Hr, Hc.
  - intros Hrect HS HG. destruct (init_accepts g Hrect HS HG) as [m Hm].
    pose proof (init_ok _ _ Hm) as (Hg & Hr & Hc & HS' & HG').
    exists (start m), (goal m). split; [done|]. split; [done|].
    rewrite Hm. f_equal. destruct m as [g' r' c' s' t']. simpl in *.
    by subst.
Qed.

Ltac first_occurrence_by_cases :=
  split; [done|]; split; [done|]; split; [reflexivity|];
  intros [r c] Hr Hc Hb; unfold scanned_before in Hb; simpl in *;
  assert (r = 0 ∨ r = 1) as [-> | ->] by lia;
  assert (c = 0 ∨ c = 1 ∨ c = 2) as [-> | [-> | ->]] by lia;
  try lia; (eexists; split; [reflexivity|discriminate]).

Lemma duplicates_first_S : first_occurrence maze_duplicates 2 3 "S" (0, 2).
Proof. first_occurrence_by_cases. Qed.

Lemma duplicates_first_G : first_occurrence maze_duplicates 2 3 "G" (0, 1).
Proof. first_occurrence_by_cases. Qed.

Lemma second_row_first_S : first_occurrence maze_second_row 2 2 "S" (1, 0).
Proof. first_occurrence_by_cases. Qed.

Lemma second_row_first_G : first_occurrence maze_second_row 2 2 "G" (0, 0).
Proof. first_occurrence_by_cases. Qed.

Lemma second_row_rectangular : rectangular maze_second_row.
Proof.
  intros row Hrow. unfold maze_second_row in Hrow. simpl in Hrow.
  rewrite !elem_of_cons, elem_of_nil in Hrow.
  by destruct Hrow as [->|[->|[]]].
Qed.

Lemma second_row_occurs_S : occurs "S" maze_second_row.
Proof.
  exists ["S"; "S"]. split; [|by left].
  unfold maze_second_row. simpl. right. by left.
Qed.

Lemma second_row_occurs_G : occurs "G" maze_second_row.
Proof.
  exists ["G"; " "]. split; [|by left].
  unfold maze_second_row. simpl. by left.
Qed.

Lemma init_takes_first_occurrence_witness :
  (grid_at maze_duplicates 1 0 = Ok "S" ∧
   grid_at maze_duplicates 1 1 = Ok "G" ∧
   MazeGrid_init maze_duplicates
     = Ok (mkMazeGrid maze_duplicates 2 3 (0, 2) (0, 1))) ∧
  (grid_at maze_second_row 1 1 = Ok "S" ∧
   MazeGrid_init maze_second_row
     = Ok (mkMazeGrid maze_second_row 2 2 (1, 0) (0, 0))) ∧
  (∃ s t,
     first_occurrence maze_second_row (len maze_second_row)
       (width maze_second_row) "S" s ∧
     first_occurrence maze_second_row (len maze_second_row)
       (width maze_second_row) "G" t ∧
     MazeGrid_init maze_second_row
       = Ok (mkMazeGrid maze_second_row (len maze_second_row)
               (width maze_second_row) s t)).
Proof.
  split; [|split].
  - split; [reflexivity|]. split; [reflexivity|].
    exact (proj1 (init_takes_first_occurrence maze_duplicates) (0, 2) (0, 1)
             duplicates_first_S duplicates_first_G).
  - split; [reflexivity|].
    exact (proj1 (init_takes_first_occurrence maze_second_row) (1, 0) (0, 0)
             second_row_first_S second_row_first_G).
  - exact (proj2 (proj2 (init_takes_first_occurrence maze_second_row))
             second_row_rectangular second_row_occurs_S second_row_occurs_G).
Defined.

(** C7: over a well-formed grid [get_neighbors] returns the cells one
    orthogonal step away that are passable, in the order up, down, left,
    right; [is_valid] is true exactly of the cells within bounds whose
    marker is not ['#']; and outside the bounds it answers false before any
    marker is looked up, on every grid state. *)
Theorem get_neighbors_is_valid_spec m pos :
  well_formed m →
  get_neighbors m pos =
    Ok (filter (λ q, is_valid m q = Ok true)
          [(pos.1 - 1, pos.2); (pos.1 + 1, pos.2);
           (pos.1, pos.2 - 1); (pos.1, pos.2 + 1)]) ∧
  (∀ ns q, get_neighbors m pos = Ok ns →
           q ∈ ns ↔ adjacent pos q ∧ passable m q) ∧
  (is_valid m pos = Ok true ↔
   0 <= pos.1 < rows m ∧ 0 <= pos.2 < cols m ∧
   ∃ x, grid_at (grid m) pos.1 pos.2 = Ok x ∧ x ≠ "#") ∧
  (is_valid m pos = Ok true ∨ is_valid m pos = Ok false) ∧
  (∀ m' q, ¬ (0 <= q.1 < rows m' ∧ 0 <= q.2 < cols m') →
           is_valid m' q = Ok false).
Proof.
  intros Hwf. split_and!.
  - destruct (get_neighbors_total m pos Hwf) as [ns Hns]. rewrite Hns.
    f_equal. by apply get_neighbors_sound.
  - intros ns q Hns. apply get_neighbors_sound in Hns. subst ns.
    rewrite list_elem_of_filter, elem_of_around, is_valid_true. tauto.
  - apply is_valid_true.
  - by apply is_valid_total.
  - intros m' q. apply is_valid_out_of_bounds.
Qed.

Lemma well_formed_3x3 : well_formed (built maze_3x3).
Proof.
  apply (init_well_formed maze_3x3); [|reflexivity].
  intros row Hrow. unfold maze_3x3 in Hrow. simpl in Hrow.
  rewrite !elem_of_cons, elem_of_nil in Hrow.
  by destruct Hrow as [->|[->|[->|[]]]].
Qed.

Lemma get_neighbors_is_valid_spec_witness :
  well_formed (built maze_3x3) ∧
  get_neighbors (built maze_3x3) (1, 1) = Ok [(0, 1); (2, 1)].
Proof.
  split; [apply well_formed_3x3|].
  exact (proj1 (get_neighbors_is_valid_spec (built maze_3x3) (1, 1)
                  well_formed_3x3)).
Defined.

(** C9: [is_valid] is true of every cell within bounds whose marker is any
    string but ['#'], the markers ['S'], ['G'] and those outside the
    alphabet included; so the start and the goal of a constructed grid are
    passable. *)
Theorem is_valid_any_marker_but_wall m pos x :
  0 <= pos.1 < rows m → 0 <= pos.2 < cols m →
  grid_at (grid m) pos.1 pos.2 = Ok x → x ≠ "#" →
  is_valid m pos = Ok true ∧
  (∀ g, MazeGrid_init g = Ok m →
        is_valid m (start m) = Ok true ∧ is_valid m (goal m) = Ok true).
Proof.
  intros Hr Hc Hat Hne. split.
  - apply is_valid_true. unfold passable. eauto.
  - intros g Hm. rewrite !is_valid_true. by eapply init_start_passable.
Qed.

Lemma is_valid_any_marker_but_wall_witness :
  MazeGrid_init maze_unknown_marker = Ok (built maze_unknown_marker) ∧
  grid_at (grid (built maze_unknown_marker)) 0 1 = Ok "x" ∧
  is_valid (built maze_unknown_marker) (0, 1) = Ok true.
Proof.
  split; [reflexivity|]. split; [reflexivity|].
  refine (proj1 (is_valid_any_marker_but_wall (built maze_unknown_marker)
                   (0, 1) "x" _ _ eq_refl _)).
  - vm_compute. split; [discriminate|reflexivity].
  - vm_compute. split; [discriminate|reflexivity].
  - discriminate.
Defined.

(** ** Claims settled by running the search *)

Lemma search_fuel_pos m : ∃ fuel, search_fuel m = S fuel.
Proof.
  unfold search_fuel. set (n := Z.to_nat (rows m * cols m)).
  exists (2 * (n * n) + 1)%nat. lia.
Qed.

Lemma heappop_singleton (e : entry) : heappop [e] = Some (e, []).
Proof. unfold heappop. simpl. by rewrite decide_True. Qed.

(** C6: on a grid state whose start cell is its goal cell the search
    returns the path of that one cell, a path of 0 steps. *)
Theorem search_start_is_goal m :
  start m = goal m →
  a_star_search m = Ok (Some [start m]) ∧
  Z.of_nat (length [start m]) - 1 = 0.
Proof.
  intros Heq. split; [|done].
  unfold a_star_search. destruct (search_fuel_pos m) as [fuel ->].
  cbn [a_star_loop]. unfold a_star_step, init_state, heappush.
  cbn [open_set app]. rewrite heappop_singleton. cbn [popped came_from].
  rewrite decide_True by done.
  unfold reconstruct_path. cbn. by rewrite lookup_empty.
Qed.

Lemma search_start_is_goal_witness :
  start maze_same_cell = goal maze_same_cell ∧
  a_star_search maze_same_cell = Ok (Some [(0, 0)]).
Proof.
  split; [reflexivity|].
  exact (proj1 (search_start_is_goal maze_same_cell eq_refl)).
Defined.

(** C4, the code at the maze [SG]: the entry pushed for the start has
    sequence number 0, the start has cost 0 and is marked as queued, and
    [f_score[start]] is the Manhattan distance 1; but the priority of the
    entry is the constant 0 of [heappush(open_set, (0, counter, start))],
    not [f_score[start]]. *)
Theorem init_state_pushes_priority_zero :
  let m := built maze_SG in
  let st := init_state m in
  MazeGrid_init maze_SG = Ok m ∧
  open_set st = [(0, 0, start m)] ∧
  counter st = 0 ∧
  g_score st !! start m = Some 0 ∧
  start m ∈ open_set_hash st ∧
  f_score st !! start m = Some (manhattan_distance (start m) (goal m)) ∧
  manhattan_distance (start m) (goal m) = 1.
Proof.
  intros m st. split_and!; reflexivity.
Qed.

Lemma linked_moves_sound m l : linked_moves m l = true → linked (move m) l.
Proof.
  induction l as [|a [|b t] IH]; simpl; try done.
  intros H. apply andb_prop in H as [Hb Ht]. split; [|by apply IH].
  apply bool_decide_eq_true in Hb. unfold move, neighbors_or_nil in *.
  destruct (get_neighbors m a) as [ns| |]; [eauto|..];
    by apply elem_of_nil in Hb.
Qed.

Lemma run_rounds_loop_head m n : ∀ st st',
  loop_head m st → run_rounds n m st = Some st' → loop_head m st'.
Proof.
  induction n as [|n IH]; intros st st' Hst; simpl.
  - by intros [= <-].
  - destruct (a_star_step m st) as [[r|st1]| |] eqn:E; try done.
    apply IH. by eapply lh_next.
Qed.

(** C1, the code at the maze [maze_detour]: the search returns
    [long_route], a path of 13 steps, while the breadth-first distance from
    start to goal is 11 and [short_route] is a route of 11 steps.  After 20
    rounds of the loop the cell (3, 5) has cost 6, so that its cost plus
    its Manhattan distance 5 to the goal is 11, but it is still queued with
    the priority 15 it was pushed with when its cost was 10; the goal,
    queued with priority 13, is popped first. *)
Theorem search_returns_longer_path :
  let m := built maze_detour in
  MazeGrid_init maze_detour = Ok m ∧
  a_star_search m = Ok (Some long_route) ∧
  Z.of_nat (length long_route) - 1 = 13 ∧
  bfs_distance m = Some 11 ∧
  route m (start m) (goal m) short_route ∧
  Z.of_nat (length short_route) - 1 = 11 ∧
  ∃ st, loop_head m st ∧
        open_set st = [(15, 16, (3, 5)); (13, 21, (0, 7))] ∧
        g_score st !! (3, 5) = Some 6 ∧
        manhattan_distance (3, 5) (goal m) = 5 ∧
        g_score st !! (0, 7) = Some 13.
Proof.
  intros m. split_and!.
  - reflexivity.
  - vm_compute. reflexivity.
  - reflexivity.
  - vm_compute. reflexivity.
  - split; [reflexivity|]. split; [reflexivity|].
    apply linked_moves_sound. vm_compute. reflexivity.
  - reflexivity.
  - assert (∃ st, run_rounds 20 m (init_state m) = Some st ∧
                  open_set st = [(15, 16, (3, 5)); (13, 21, (0, 7))] ∧
                  g_score st !! (3, 5) = Some 6 ∧
                  manhattan_distance (3, 5) (goal m) = 5 ∧
                  g_score st !! (0, 7) = Some 13) as (st & E & Hst).
    { eexists. split; [vm_compute; reflexivity|].
      split_and!; vm_compute; reflexivity. }
    exists st. split; [|exact Hst].
    eapply run_rounds_loop_head; [apply lh_init|exact E].
Qed.

(** ** The priority queue *)

Lemma heap_min_elem h : ∀ e, heap_min e h ∈ e :: h.
Proof.
  induction h as [|x h IH]; intros e; simpl; [by left|].
  specialize (IH (if entry_ltb x e then x else e)).
  apply elem_of_cons in IH as [->|IH].
  - destruct (entry_ltb x e); [right; left|left].
  - right. by right.
Qed.

Lemma remove_first_elem e h x : x ∈ remove_first e h → x ∈ h.
Proof.
  induction h as [|y h IH]; simpl; [done|].
  case_decide; [by right|].
  rewrite !elem_of_cons. intros [->|Hx]; [by left|right; by apply IH].
Qed.

Lemma remove_first_length e h :
  e ∈ h → length h = S (length (remove_first e h)).
Proof.
  induction h as [|y h IH]; simpl; [by intros ?%elem_of_nil|].
  intros He. case_decide as Hy; [done|]. simpl. f_equal. apply IH.
  apply elem_of_cons in He as [->|]; done.
Qed.

(** What [heappop] gives was queued, what it leaves was queued, and the
    queue is one entry shorter. *)
Lemma heappop_spec h e h' :
  heappop h = Some (e, h') →
  e ∈ h ∧ (∀ x, x ∈ h' → x ∈ h) ∧ length h = S (length h').
Proof.
  unfold heappop. destruct h as [|x h]; [done|]. intros [= <- <-].
  pose proof (heap_min_elem h x) as Hin. split_and!.
  - done.
  - intros y. apply (remove_first_elem (heap_min x h) (x :: h)).
  - by apply (remove_first_length (heap_min x h) (x :: h)).
Qed.

(** ** The potential *)

Lemma elem_of_all_cells m p :
  p ∈ all_cells m ↔ 0 <= p.1 < rows m ∧ 0 <= p.2 < cols m.
Proof.
  unfold all_cells. rewrite list_elem_of_bind. split.
  - intros (r & Hp & Hr). apply list_elem_of_fmap in Hp as (c & -> & Hc).
    apply elem_of_seqZ in Hr, Hc. simpl. lia.
  - intros [Hr Hc]. exists p.1. split.
    + apply list_elem_of_fmap. exists p.2. split; [by destruct p|].
      apply elem_of_seqZ. lia.
    + apply elem_of_seqZ. lia.
Qed.

Lemma length_all_cells m :
  (length (all_cells m) <= Z.to_nat (rows m * cols m))%nat.
Proof.
  unfold all_cells.
  assert (∀ l : list Z, length (l ≫= λ r, (λ c, (r, c)) <$> seqZ 0 (cols m))
                        = (length l * Z.to_nat (cols m))%nat) as Hlen.
  { induction l as [|a l IH]; [done|].
    rewrite bind_cons, length_app, IH, length_fmap, length_seqZ. simpl. lia. }
  rewrite Hlen, length_seqZ. nia.
Qed.

Lemma size_keys_le (g : gmap Cell Z) (l : list Cell) :
  (∀ n, is_Some (g !! n) → n ∈ l) → (size g <= length l)%nat.
Proof.
  intros Hsub. rewrite <- size_dom. unfold size, set_size. simpl.
  apply submseteq_length, NoDup_submseteq; [apply NoDup_elements|].
  intros x Hx. apply Hsub. apply elem_of_elements in Hx.
  by apply elem_of_dom.
Qed.

Section Potential.
Variable big : Z.
Implicit Types (g : gmap Cell Z) (l : list Cell).

Lemma total_mono g g' l :
  (∀ c, c ∈ l → weight big (g' !! c) <= weight big (g !! c)) →
  total big g' l <= total big g l.
Proof.
  induction l as [|a l IH]; simpl; [done|]. intros H.
  pose proof (H a ltac:(by left)).
  assert (total big g' l <= total big g l)
    by (apply IH; intros; apply H; by right).
  unfold total in *. lia.
Qed.

Lemma total_drop g g' l n :
  n ∈ l →
  (∀ c, c ∈ l → weight big (g' !! c) <= weight big (g !! c)) →
  weight big (g' !! n) < weight big (g !! n) →
  total big g' l < total big g l.
Proof.
  induction l as [|a l IH]; simpl; [by intros ?%elem_of_nil|].
  intros Hn H Hlt.
  pose proof (H a ltac:(by left)).
  assert (total big g' l <= total big g l)
    by (apply total_mono; intros; apply H; by right).
  destruct (decide (a = n)) as [->|Hne]; [unfold total in *; lia|].
  assert (total big g' l < total big g l).
  { apply elem_of_cons in Hn as [->|Hn]; [done|].
    apply IH; [done| |done]. intros; apply H; by right. }
  unfold total in *. lia.
Qed.

Lemma total_bounds g l :
  0 <= big → (∀ c v, g !! c = Some v → 0 <= v <= big) →
  0 <= total big g l <= big * Z.of_nat (length l).
Proof.
  intros Hbig Hg. induction l as [|a l IH]; simpl; [lia|].
  assert (0 <= weight big (g !! a) <= big).
  { destruct (g !! a) as [v|] eqn:E; simpl; [by eapply Hg|lia]. }
  unfold total in *. lia.
Qed.
End Potential.

(** ** The invariant of the search *)

Lemma relax_cases m current st n :
  relax m current st n = st ∨
  ∃ gc, g_score st !! current = Some gc ∧
        (g_score st !! n = None ∨
         ∃ gn, g_score st !! n = Some gn ∧ gc + 1 < gn) ∧
        came_from (relax m current st n) = <[n := current]> (came_from st) ∧
        g_score (relax m current st n) = <[n := gc + 1]> (g_score st) ∧
        (open_set (relax m current st n) = open_set st ∨
         open_set (relax m current st n) =
           heappush (open_set st)
             (gc + 1 + manhattan_distance n (goal m), counter st + 1, n)).
Proof.
  unfold relax. destruct (g_score st !! current) as [gc|] eqn:Ec; [|by left].
  destruct (g_score st !! n) as [gn|] eqn:En.
  - destruct (Z.ltb_spec (gc + 1) gn); [|by left].
    right. exists gc. split; [done|]. split; [right; eauto|].
    case_decide; simpl; auto.
  - right. exists gc. split; [done|]. split; [by left|].
    case_decide; simpl; auto.
Qed.

Section Search.
Variable maze : MazeGrid.
Hypothesis start_passable : passable maze (start maze).

Lemma init_state_inv : search_inv maze (init_state maze).
Proof.
  unfold init_state. split; simpl.
  - apply lookup_singleton_eq.
  - intros n v Hn. apply lookup_singleton_Some in Hn as [_ <-].
    rewrite map_size_singleton. lia.
  - apply lookup_empty.
  - intros n p Hn. by rewrite lookup_empty in Hn.
  - intros n [v Hn]. apply lookup_singleton_Some in Hn as [<- _]. by left.
  - by rewrite map_size_singleton, map_size_empty.
  - intros n [v Hn]. by apply lookup_singleton_Some in Hn as [<- _].
  - intros e He. unfold heappush in He. simpl in He.
    apply list_elem_of_singleton in He as ->. simpl.
    rewrite lookup_singleton_eq. eauto.
Qed.

Lemma popped_inv st open_set' current :
  search_inv maze st → (∀ x, x ∈ open_set' → x ∈ open_set st) →
  search_inv maze (popped st open_set' current).
Proof.
  intros [] Hsub. split; simpl; try done. intros e He. auto.
Qed.

(** The tables after a cost of [n] has dropped to one more than the cost
    of [current]. *)
Lemma improve_inv st st' current n gc :
  search_inv maze st →
  g_score st !! current = Some gc →
  move maze current n →
  (g_score st !! n = None ∨ ∃ gn, g_score st !! n = Some gn ∧ gc + 1 < gn) →
  came_from st' = <[n := current]> (came_from st) →
  g_score st' = <[n := gc + 1]> (g_score st) →
  (∀ e, e ∈ open_set st' → e ∈ open_set st ∨ e.2 = n) →
  search_inv maze st'.
Proof.
  intros Hinv Hc Hmove Hn Hcf Hg Hopen.
  pose proof (inv_g_bound _ _ Hinv _ _ Hc) as Hgc.
  assert (n ≠ start maze) as Hns.
  { intros ->. rewrite (inv_start_g _ _ Hinv) in Hn.
    destruct Hn as [|(gn & [= <-] & ?)]; [done|lia]. }
  assert (n ≠ current) as Hnc.
  { intros ->. rewrite Hc in Hn.
    destruct Hn as [|(gn & [= <-] & ?)]; [done|lia]. }
  assert (g_score st !! n = None → came_from st !! n = None) as Hnone.
  { intros Hgn. destruct (came_from st !! n) as [p|] eqn:E; [|done].
    destruct (inv_link _ _ Hinv _ _ E) as (_ & gn & gp & Hgn' & _).
    congruence. }
  split; rewrite ?Hcf, ?Hg.
  - rewrite lookup_insert_ne by done. apply Hinv.
  - intros k v Hk. destruct Hn as [Hn|(gn & Hn & Hlt)].
    + rewrite map_size_insert_None by done.
      destruct (decide (n = k)) as [->|Hne].
      * rewrite lookup_insert_eq in Hk. injection Hk as <-. lia.
      * rewrite lookup_insert_ne in Hk by done.
        pose proof (inv_g_bound _ _ Hinv _ _ Hk). lia.
    + rewrite map_size_insert_Some by eauto.
      destruct (decide (n = k)) as [->|Hne].
      * rewrite lookup_insert_eq in Hk. injection Hk as <-.
        pose proof (inv_g_bound _ _ Hinv _ _ Hn). lia.
      * rewrite lookup_insert_ne in Hk by done.
        by apply (inv_g_bound _ _ Hinv k).
  - rewrite lookup_insert_ne by done. apply Hinv.
  - intros k p Hk. destruct (decide (n = k)) as [->|Hne].
    + rewrite lookup_insert_eq in Hk. injection Hk as <-.
      split; [done|]. exists (gc + 1), gc.
      rewrite lookup_insert_eq, lookup_insert_ne by done.
      split_and!; [done|done|lia].
    + rewrite lookup_insert_ne in Hk by done.
      destruct (inv_link _ _ Hinv _ _ Hk) as (Hm & gk & gp & Hgk & Hgp & Hlt).
      split; [done|]. rewrite (lookup_insert_ne _ n k) by done.
      destruct (decide (n = p)) as [->|Hnp].
      * exists gk, (gc + 1). rewrite lookup_insert_eq.
        split_and!; [done|done|].
        destruct Hn as [Hn|(gn & Hn & Hlt')]; [congruence|].
        assert (gn = gp) by congruence. lia.
      * exists gk, gp. by rewrite lookup_insert_ne by done.
  - intros k Hk. destruct (decide (n = k)) as [->|Hne].
    + right. rewrite lookup_insert_eq. eauto.
    + rewrite lookup_insert_ne in Hk by done.
      rewrite lookup_insert_ne by done. by apply Hinv.
  - destruct Hn as [Hn|(gn & Hn & Hlt)].
    + rewrite !map_size_insert_None by auto. f_equal. apply Hinv.
    + destruct (inv_dom _ _ Hinv n ltac:(eauto)) as [|[p Hp]]; [done|].
      rewrite !map_size_insert_Some by eauto. apply Hinv.
  - intros k Hk. destruct (decide (n = k)) as [->|Hne].
    + by apply move_spec in Hmove as [_ ?].
    + rewrite lookup_insert_ne in Hk by done. by apply Hinv.
  - intros e He. apply lookup_insert_is_Some.
    destruct (Hopen e He) as [Hold|Hnew]; [|by left].
    destruct (decide (n = e.2)); [by left|right].
    split; [done|]. by apply Hinv.
Qed.

Lemma keys_in_cells st :
  search_inv maze st → (size (g_score st) <= length (all_cells maze))%nat.
Proof.
  intros Hinv. apply size_keys_le. intros n Hn.
  apply elem_of_all_cells. apply (inv_pass _ _ Hinv) in Hn.
  destruct Hn as (? & ? & _). done.
Qed.

(** When a cost drops, the potential drops. *)
Lemma improve_potential st st' n gc :
  search_inv maze st → search_inv maze st' →
  (g_score st !! n = None ∨ ∃ gn, g_score st !! n = Some gn ∧ gc + 1 < gn) →
  g_score st' = <[n := gc + 1]> (g_score st) →
  potential maze (g_score st') < potential maze (g_score st).
Proof.
  intros Hinv Hinv' Hn Hg. unfold potential.
  assert (g_score st' !! n = Some (gc + 1)) as Hn'
    by (rewrite Hg; apply lookup_insert_eq).
  apply (total_drop _ _ _ _ n).
  - apply elem_of_all_cells.
    destruct (inv_pass _ _ Hinv' n ltac:(eauto)) as (? & ? & _). done.
  - intros c _. rewrite Hg. destruct (decide (n = c)) as [->|Hne].
    + rewrite lookup_insert_eq. simpl.
      destruct Hn as [Hn|(gn & Hn & Hlt)]; rewrite Hn; simpl; [|lia].
      pose proof (inv_g_bound _ _ Hinv' _ _ Hn').
      pose proof (keys_in_cells _ Hinv'). unfold len. lia.
    + by rewrite lookup_insert_ne by done.
  - rewrite Hn'. simpl.
    destruct Hn as [Hn|(gn & Hn & Hlt)]; rewrite Hn; simpl; [|lia].
    pose proof (inv_g_bound _ _ Hinv' _ _ Hn').
    pose proof (keys_in_cells _ Hinv'). unfold len. lia.
Qed.

Lemma relax_inv st current n :
  search_inv maze st → is_Some (g_score st !! current) →
  move maze current n →
  search_inv maze (relax maze current st n) ∧
  is_Some (g_score (relax maze current st n) !! current) ∧
  measure maze (relax maze current st n) <= measure maze st.
Proof.
  intros Hinv Hcur Hmove.
  destruct (relax_cases maze current st n)
    as [->|(gc & Hc & Hn & Hcf & Hg & Hopen)]; [by split_and!; [..|lia]|].
  assert (search_inv maze (relax maze current st n)) as Hinv'.
  { eapply improve_inv; try done.
    intros e He. destruct Hopen as [Ho|Ho]; rewrite Ho in He; [by left|].
    unfold heappush in He. apply elem_of_app in He as [|He]; [by left|].
    apply list_elem_of_singleton in He as ->. by right. }
  split_and!; [done| |].
  - rewrite Hg. apply lookup_insert_is_Some.
    destruct (decide (n = current)); [by left|by right].
  - pose proof (improve_potential _ _ _ _ Hinv Hinv' Hn Hg).
    unfold measure, len.
    destruct Hopen as [-> | ->]; unfold heappush;
      rewrite ?length_app; simpl; lia.
Qed.

Lemma expand_inv current ns : ∀ st,
  search_inv maze st → is_Some (g_score st !! current) →
  (∀ q, q ∈ ns → move maze current q) →
  search_inv maze (expand maze current st ns) ∧
  measure maze (expand maze current st ns) <= measure maze st.
Proof.
  unfold expand. induction ns as [|q ns IH]; intros st Hinv Hcur Hmoves;
    simpl; [split; [done|lia]|].
  destruct (relax_inv st current q Hinv Hcur) as (Hinv' & Hcur' & Hle).
  { apply Hmoves. by left. }
  destruct (IH _ Hinv' Hcur') as (Hinv'' & Hle').
  { intros q' Hq'. apply Hmoves. by right. }
  split; [done|lia].
Qed.
End Search.

(** ** Linked lists of cells *)

Lemma linked_snoc (P : Cell → Cell → Prop) l a :
  linked P l → (∀ b, last l = Some b → P b a) → linked P (l ++ [a]).
Proof.
  induction l as [|x [|y t] IH]; simpl; intros Hl Hlast; [done|auto|].
  destruct Hl as [Hxy Ht]. split; [done|]. apply IH; [done|].
  intros b Hb. apply Hlast. done.
Qed.

Lemma linked_reverse (P : Cell → Cell → Prop) l :
  linked (flip P) l → linked P (reverse l).
Proof.
  induction l as [|x [|y t] IH]; simpl; intros Hl; [done|done|].
  destruct Hl as [Hxy Ht]. rewrite reverse_cons. apply linked_snoc; [auto|].
  intros b Hb. rewrite last_reverse in Hb. simpl in Hb. by injection Hb as <-.
Qed.

Lemma linked_impl (P Q : Cell → Cell → Prop) l :
  (∀ a b, P a b → Q a b) → linked P l → linked Q l.
Proof.
  intros HPQ. induction l as [|x [|y t] IH]; [done|done|].
  intros [Hxy Ht]. split; [by apply HPQ|by apply IH].
Qed.

Lemma linked_targets (P : Cell → Cell → Prop) l c :
  linked P l → c ∈ l → head l = Some c ∨ ∃ b, P b c.
Proof.
  induction l as [|x [|y t] IH]; simpl; intros Hl Hc.
  - by apply elem_of_nil in Hc.
  - apply list_elem_of_singleton in Hc as ->. by left.
  - destruct Hl as [Hxy Ht]. apply elem_of_cons in Hc as [->|Hc]; [by left|].
    right. destruct (IH Ht Hc) as [[= <-]|Hb]; eauto.
Qed.

Lemma route_reachable m path : ∀ p q,
  route m p q path → reachable m p q.
Proof.
  unfold route, reachable.
  induction path as [|x [|y t] IH]; intros p q (Hh & Hl & Hlink).
  - done.
  - simpl in *. injection Hh as <-. injection Hl as <-. apply rtc_refl.
  - simpl in Hh. injection Hh as <-. destruct Hlink as [Hxy Ht].
    eapply rtc_l; [exact Hxy|]. apply IH. split; [done|]. split; done.
Qed.

(** Along a route that starts on a passable cell, consecutive cells are one
    orthogonal step apart and every cell is passable. *)
Lemma route_steps m p q path :
  passable m p → route m p q path →
  linked adjacent path ∧ ∀ c, c ∈ path → passable m c.
Proof.
  intros Hp (Hh & _ & Hlink). split.
  - eapply linked_impl; [|done]. intros a b Hab.
    apply move_spec in Hab as [Hadj _]. exact Hadj.
  - intros c Hc. destruct (linked_targets _ _ _ Hlink Hc) as [Hc'|[b Hb]].
    + rewrite Hh in Hc'. by injection Hc' as <-.
    + apply move_spec in Hb as [_ Hpass]. exact Hpass.
Qed.

(** ** Path reconstruction and the loop *)

Lemma py_index_fuel {A} (l : list A) i : py_index l i ≠ NoFuel.
Proof.
  unfold py_index.
  destruct ((0 <=? (if i <? 0 then i + Z.of_nat (length l) else i)) &&
            ((if i <? 0 then i + Z.of_nat (length l) else i) <?
             Z.of_nat (length l))); [|done].
  by destruct (l !! _).
Qed.

Lemma is_valid_fuel m p : is_valid m p ≠ NoFuel.
Proof.
  destruct p as [r c]. unfold is_valid.
  destruct ((0 <=? r) && (r <? rows m) && (0 <=? c) && (c <? cols m)); [|done].
  unfold grid_at, res_bind.
  destruct (py_index (grid m) r) as [row| |] eqn:E; try done.
  - destruct (py_index row c) eqn:E'; try done. by apply py_index_fuel in E'.
  - by apply py_index_fuel in E.
Qed.

Lemma neighbors_loop_fuel m r c dirs : ∀ acc,
  neighbors_loop m r c dirs acc ≠ NoFuel.
Proof.
  induction dirs as [|[dr dc] dirs IH]; intros acc; simpl; [done|].
  unfold res_bind. destruct (is_valid m (r + dr, c + dc)) eqn:E; try done.
  by apply is_valid_fuel in E.
Qed.

Lemma get_neighbors_fuel m p : get_neighbors m p ≠ NoFuel.
Proof. destruct p. apply neighbors_loop_fuel. Qed.

Section Loop.
Variable maze : MazeGrid.
Hypothesis start_passable : passable maze (start maze).

Lemma reconstruct_loop_spec st :
  search_inv maze st →
  ∀ fuel cur acc v,
    g_score st !! cur = Some v → v < Z.of_nat fuel →
    ∃ l, reconstruct_loop fuel (came_from st) cur acc = Ok (acc ++ l) ∧
         linked (flip (move maze)) (cur :: l) ∧
         last (cur :: l) = Some (start maze).
Proof.
  intros Hinv. induction fuel as [|fuel IH]; intros cur acc v Hv Hlt.
  { pose proof (inv_g_bound _ _ Hinv _ _ Hv). lia. }
  simpl. destruct (came_from st !! cur) as [p|] eqn:E.
  - destruct (inv_link _ _ Hinv _ _ E) as (Hm & gn & gp & Hgn & Hgp & Hlt').
    assert (gn = v) as -> by congruence.
    destruct (IH p (acc ++ [p]) gp Hgp ltac:(lia)) as (l & Hl & Hlink & Hlast).
    exists (p :: l). rewrite Hl, <- app_assoc.
    split; [done|]. split; [|done]. split; [done|]. exact Hlink.
  - exists []. rewrite app_nil_r. split; [done|]. split; [done|]. simpl.
    destruct (inv_dom _ _ Hinv cur ltac:(eauto)) as [->|[p Hp]]; [done|].
    congruence.
Qed.

Lemma reconstruct_path_spec st cur :
  search_inv maze st → is_Some (g_score st !! cur) →
  ∃ path, reconstruct_path (came_from st) cur = Ok path ∧
          route maze (start maze) cur path.
Proof.
  intros Hinv [v Hv]. unfold reconstruct_path.
  destruct (reconstruct_loop_spec st Hinv (S (size (came_from st))) cur
              [cur] v Hv) as (l & Hl & Hlink & Hlast).
  { pose proof (inv_g_bound _ _ Hinv _ _ Hv).
    rewrite (inv_size _ _ Hinv) in *. lia. }
  rewrite Hl. simpl. eexists. split; [done|]. unfold route.
  change ([cur] ++ l) with (cur :: l).
  rewrite head_reverse, last_reverse. split; [done|]. split; [done|].
  by apply linked_reverse.
Qed.

Lemma measure_nonneg st : search_inv maze st → 0 <= measure maze st.
Proof.
  intros Hinv. unfold measure, potential, len.
  pose proof (total_bounds (Z.of_nat (length (all_cells maze)))
                (g_score st) (all_cells maze)) as Hb.
  destruct Hb as [Hb _]; [lia| |lia].
  intros c v Hc. pose proof (inv_g_bound _ _ Hinv _ _ Hc).
  pose proof (keys_in_cells maze st Hinv). lia.
Qed.

(** One round of the [while] loop. *)
Lemma step_spec st :
  search_inv maze st →
  match a_star_step maze st with
  | Ok (Return (Some path)) => route maze (start maze) (goal maze) path
  | Ok (Return None) => open_set st = []
  | Ok (Continue st') =>
      search_inv maze st' ∧ measure maze st' < measure maze st
  | Raise e => ∃ p, get_neighbors maze p = Raise e
  | NoFuel => False
  end.
Proof.
  intros Hinv. unfold a_star_step.
  destruct (heappop (open_set st)) as [[[[f k] current] open_set']|] eqn:Epop.
  2:{ unfold heappop in Epop. by destruct (open_set st). }
  apply heappop_spec in Epop as (Hin & Hsub & Hlen).
  pose proof (inv_open _ _ Hinv _ Hin) as Hcur. simpl in Hcur.
  pose proof (popped_inv maze st open_set' current Hinv Hsub) as Hinv1.
  case_decide as Hgoal.
  - destruct (reconstruct_path_spec _ current Hinv1 Hcur)
      as (path & -> & Hroute).
    simpl. by rewrite <- Hgoal.
  - destruct (get_neighbors maze current) as [ns|e|] eqn:En; simpl.
    + destruct (expand_inv maze current ns _ Hinv1 Hcur) as [Hinv' Hle].
      { intros q Hq. exists ns. done. }
      split; [done|].
      assert (measure maze (popped st open_set' current) < measure maze st).
      { unfold measure, popped, len. simpl. lia. }
      lia.
    + eauto.
    + by apply get_neighbors_fuel in En.
Qed.

Lemma loop_spec fuel : ∀ st,
  search_inv maze st → measure maze st < Z.of_nat fuel →
  match a_star_loop fuel maze st with
  | Ok (Some path) => route maze (start maze) (goal maze) path
  | Ok None => True
  | Raise e => ∃ p, get_neighbors maze p = Raise e
  | NoFuel => False
  end.
Proof.
  induction fuel as [|fuel IH]; intros st Hinv Hlt.
  { pose proof (measure_nonneg st Hinv). lia. }
  simpl. pose proof (step_spec st Hinv) as Hstep.
  destruct (a_star_step maze st) as [[[path|]|st']|e|]; simpl; try done.
  destruct Hstep as [Hinv' Hlt']. apply IH; [done|lia].
Qed.

Lemma init_measure :
  measure maze (init_state maze) < Z.of_nat (search_fuel maze).
Proof.
  pose proof init_state_inv maze start_passable as Hinv.
  unfold measure, potential, len.
  pose proof (total_bounds (Z.of_nat (length (all_cells maze)))
                (g_score (init_state maze)) (all_cells maze)) as Hb.
  destruct Hb as [_ Hb]; [lia| |].
  { intros c v Hc. pose proof (inv_g_bound _ _ Hinv _ _ Hc).
    pose proof (keys_in_cells maze _ Hinv). lia. }
  pose proof (length_all_cells maze) as Hlen.
  unfold search_fuel. set (n := Z.to_nat (rows maze * cols maze)) in *.
  set (N := length (all_cells maze)) in *.
  change (length (open_set (init_state maze))) with 1%nat.
  assert (Z.of_nat N * Z.of_nat N <= Z.of_nat n * Z.of_nat n) by nia.
  lia.
Qed.

(** The search ends; a path it returns is a route from start to goal;
    and it raises only where [get_neighbors] raises. *)
Lemma search_spec :
  match a_star_search maze with
  | Ok (Some path) => route maze (start maze) (goal maze) path
  | Ok None => True
  | Raise e => ∃ p, get_neighbors maze p = Raise e
  | NoFuel => False
  end.
Proof.
  apply loop_spec; [by apply init_state_inv|apply init_measure].
Qed.

Lemma loop_head_inv st : loop_head maze st → search_inv maze st.
Proof.
  induction 1 as [|st st' _ IH Hstep]; [by apply init_state_inv|].
  pose proof (step_spec st IH) as Hs. rewrite Hstep in Hs. apply Hs.
Qed.

Lemma during_run_inv st : during_run maze st → search_inv maze st.
Proof.
  intros [Hhead|Hfor]; [by apply loop_head_inv|].
  destruct Hfor as (st0 & f & k & current & open_set' & done & todo &
                    Hhead & Hpop & _ & Hns & ->).
  apply loop_head_inv in Hhead.
  apply heappop_spec in Hpop as (Hin & Hsub & _).
  apply expand_inv.
  - by apply popped_inv.
  - apply (inv_open _ _ Hhead _ Hin).
  - intros q Hq. exists (done ++ todo). split; [done|].
    apply elem_of_app. by left.
Qed.
End Loop.

(** ** Claims about the search *)

(** C2: when the search on a constructed grid returns a path, every two
    consecutive cells of the path differ by exactly one unit in exactly one
    coordinate, and no cell of the path holds the wall marker ['#']. *)
Theorem search_path_steps_and_cells g m path :
  MazeGrid_init g = Ok m →
  a_star_search m = Ok (Some path) →
  linked adjacent path ∧
  ∀ c, c ∈ path → ∃ x, grid_at (grid m) c.1 c.2 = Ok x ∧ x ≠ "#".
Proof.
  intros Hm Hpath. apply init_start_passable in Hm as [Hs _].
  pose proof (search_spec m Hs) as Hspec. rewrite Hpath in Hspec.
  destruct (route_steps _ _ _ _ Hs Hspec) as [Hadj Hpass].
  split; [done|]. intros c Hc. by destruct (Hpass c Hc) as (_ & _ & ?).
Qed.

Lemma search_path_steps_and_cells_witness :
  MazeGrid_init maze_3x3 = Ok (built maze_3x3) ∧
  a_star_search (built maze_3x3) =
    Ok (Some [(0, 0); (0, 1); (1, 1); (2, 1); (2, 2)]) ∧
  linked adjacent [(0, 0); (0, 1); (1, 1); (2, 1); (2, 2)].
Proof.
  split; [reflexivity|]. split; [vm_compute; reflexivity|].
  refine (proj1 (search_path_steps_and_cells maze_3x3 (built maze_3x3)
                   [(0, 0); (0, 1); (1, 1); (2, 1); (2, 2)] eq_refl _)).
  vm_compute. reflexivity.
Defined.





(** C10: in the run of the search on a constructed grid the start cell
    never has a predecessor: at the head of every round of the [while]
    loop and after every neighbour handled inside it, [came_from] has no
    entry for the start, whose cost stays 0 while no cost is negative.  So
    whenever the goal is popped, [reconstruct_path] ends, and the path it
    gives, which is the path the search returns, begins with the start
    and ends with the goal. *)
Theorem start_never_gets_predecessor g m :
  MazeGrid_init g = Ok m →
  (∀ st, during_run m st →
         came_from st !! start m = None ∧
         g_score st !! start m = Some 0 ∧
         ∀ n v, g_score st !! n = Some v → 0 <= v) ∧
  (∀ st f k open_set',
     loop_head m st →
     heappop (open_set st) = Some ((f, k, goal m), open_set') →
     ∃ path, reconstruct_path (came_from st) (goal m) = Ok path ∧
             head path = Some (start m) ∧ last path = Some (goal m)) ∧
  (∀ path, a_star_search m = Ok (Some path) →
           head path = Some (start m) ∧ last path = Some (goal m)).
Proof.
  intros Hm. apply init_start_passable in Hm as [Hs _]. split_and!.
  - intros st Hrun. apply (during_run_inv m Hs) in Hrun.
    split_and!; [apply Hrun..|].
    intros n v Hn. by apply (inv_g_bound _ _ Hrun) in Hn as [? _].
  - intros st f k open_set' Hhead Hpop.
    apply (loop_head_inv m Hs) in Hhead.
    apply heappop_spec in Hpop as (Hin & _ & _).
    pose proof (inv_open _ _ Hhead _ Hin) as Hgoal. simpl in Hgoal.
    destruct (reconstruct_path_spec m st (goal m) Hhead Hgoal)
      as (path & Hpath & Hh & Hl & _).
    eauto.
  - intros path Hpath. pose proof (search_spec m Hs) as Hspec.
    rewrite Hpath in Hspec. by destruct Hspec as (? & ? & _).
Qed.

Lemma start_never_gets_predecessor_witness :
  MazeGrid_init maze_3x3 = Ok (built maze_3x3) ∧
  came_from (init_state (built maze_3x3)) !! start (built maze_3x3) = None ∧
  head [(0, 0); (0, 1); (1, 1); (2, 1); (2, 2)]
    = Some (start (built maze_3x3)) ∧
  last [(0, 0); (0, 1); (1, 1); (2, 1); (2, 2)]
    = Some (goal (built maze_3x3)).
Proof.
  split; [reflexivity|].
  destruct (start_never_gets_predecessor maze_3x3 (built maze_3x3) eq_refl)
    as (Hrun & _ & Hret).
  split.
  - apply (Hrun (init_state (built maze_3x3))). left. constructor.
  - apply Hret. vm_compute. reflexivity.
Defined.

(** * Further properties of the code *)

(** ** The heuristic *)

(** X1: [manhattan_distance] is a metric on cells: it is never negative,
    symmetric, zero exactly between a cell and itself, and obeys the
    triangle inequality. *)
Theorem manhattan_distance_metric (p q r : Cell) :
  0 <= manhattan_distance p q ∧
  manhattan_distance p q = manhattan_distance q p ∧
  (manhattan_distance p q = 0 ↔ p = q) ∧
  manhattan_distance p r <= manhattan_distance p q + manhattan_distance q r.
Proof.
  destruct p as [p1 p2], q as [q1 q2], r as [r1 r2].
  unfold manhattan_distance. simpl. split_and!; try lia.
  split; [intros H; f_equal; lia|intros [= -> ->]; lia].
Qed.

Lemma adjacent_manhattan (p q t : Cell) :
  adjacent p q →
  Z.abs (manhattan_distance p t - manhattan_distance q t) = 1.
Proof.
  destruct p as [p1 p2], q as [q1 q2], t as [t1 t2].
  unfold adjacent, manhattan_distance. simpl. lia.
Qed.

(** X2: one move changes the Manhattan distance to any target cell by
    exactly one, up or down. *)
Theorem move_changes_heuristic_by_one m p q t :
  move m p q →
  manhattan_distance q t = manhattan_distance p t - 1 ∨
  manhattan_distance q t = manhattan_distance p t + 1.
Proof.
  intros Hmove. apply move_spec in Hmove as [Hadj _].
  pose proof (adjacent_manhattan p q t Hadj). lia.
Qed.

Lemma move_3x3 : move (built maze_3x3) (0, 0) (0, 1).
Proof. exists [(0, 1)]. split; [reflexivity|]. by left. Qed.

Lemma move_changes_heuristic_by_one_witness :
  move (built maze_3x3) (0, 0) (0, 1) ∧
  manhattan_distance (0, 1) (2, 2) = manhattan_distance (0, 0) (2, 2) - 1.
Proof.
  split; [apply move_3x3|].
  destruct (move_changes_heuristic_by_one (built maze_3x3) (0, 0) (0, 1)
              (2, 2) move_3x3) as [H|H]; [exact H|discriminate H].
Defined.

Lemma linked_adjacent_manhattan path : ∀ p q,
  head path = Some p → last path = Some q → linked adjacent path →
  manhattan_distance p q <= Z.of_nat (length path) - 1.
Proof.
  induction path as [|x [|y t] IH]; intros p q Hh Hl Hlink.
  - done.
  - simpl in *. injection Hh as <-. injection Hl as <-.
    destruct x as [x1 x2]. unfold manhattan_distance. simpl. lia.
  - simpl in Hh. injection Hh as <-. destruct Hlink as [Hxy Ht].
    specialize (IH y q eq_refl Hl Ht).
    pose proof (adjacent_manhattan x y q Hxy).
    change (length (x :: y :: t)) with (S (length (y :: t))). lia.
Qed.

(** X3: the heuristic is admissible: no route of the maze from [p] to [q]
    has fewer steps than the Manhattan distance from [p] to [q]. *)
Theorem manhattan_distance_admissible m p q path :
  route m p q path →
  manhattan_distance p q <= Z.of_nat (length path) - 1.
Proof.
  intros (Hh & Hl & Hlink). apply linked_adjacent_manhattan; try done.
  eapply linked_impl; [|done]. intros a b Hab.
  apply move_spec in Hab as [Hadj _]. exact Hadj.
Qed.

Lemma short_route_is_route :
  route (built maze_detour) (2, 0) (0, 7) short_route.
Proof.
  split; [reflexivity|]. split; [reflexivity|].
  apply linked_moves_sound. vm_compute. reflexivity.
Qed.

Lemma manhattan_distance_admissible_witness :
  route (built maze_detour) (2, 0) (0, 7) short_route ∧
  manhattan_distance (2, 0) (0, 7) <= 11.
Proof.
  split; [apply short_route_is_route|].
  exact (manhattan_distance_admissible (built maze_detour) (2, 0) (0, 7)
           short_route short_route_is_route).
Defined.

(** ** What can be raised *)

Lemma py_index_raise {A} (l : list A) i e :
  py_index l i = Raise e → e = IndexError.
Proof.
  unfold py_index.
  destruct ((0 <=? (if i <? 0 then i + Z.of_nat (length l) else i)) &&
            ((if i <? 0 then i + Z.of_nat (length l) else i) <?
             Z.of_nat (length l))); [|by intros [= <-]].
  destruct (l !! _); [done|by intros [= <-]].
Qed.

Lemma grid_at_raise g r c e : grid_at g r c = Raise e → e = IndexError.
Proof.
  unfold grid_at, res_bind. destruct (py_index g r) as [row|e'|] eqn:E.
  - apply py_index_raise.
  - intros [= <-]. by apply py_index_raise in E.
  - done.
Qed.

Lemma find_in_row_raise g symbol r n e : ∀ c,
  find_in_row g symbol r c n = Raise e → e = IndexError.
Proof.
  induction n as [|n IH]; intros c; simpl; [done|].
  unfold res_bind. destruct (grid_at g r c) as [x|e'|] eqn:E.
  - destruct (decide (x = symbol)); [done|apply IH].
  - intros [= <-]. by apply grid_at_raise in E.
  - done.
Qed.

Lemma find_in_rows_raise g symbol ncols n e : ∀ r,
  find_in_rows g symbol ncols r n = Raise e → e = IndexError.
Proof.
  induction n as [|n IH]; intros r; simpl; [done|].
  unfold res_bind.
  destruct (find_in_row g symbol r 0 ncols) as [[p|]|e'|] eqn:E.
  - done.
  - apply IH.
  - intros [= <-]. by apply find_in_row_raise in E.
  - done.
Qed.

Lemma is_valid_raise m p e : is_valid m p = Raise e → e = IndexError.
Proof.
  destruct p as [r c]. unfold is_valid.
  destruct ((0 <=? r) && (r <? rows m) && (0 <=? c) && (c <? cols m)); [|done].
  unfold res_bind. destruct (grid_at (grid m) r c) as [x|e'|] eqn:E; [done| |done].
  intros [= <-]. by apply grid_at_raise in E.
Qed.

Lemma neighbors_loop_raise m r c dirs e : ∀ acc,
  neighbors_loop m r c dirs acc = Raise e → e = IndexError.
Proof.
  induction dirs as [|[dr dc] dirs IH]; intros acc; simpl; [done|].
  unfold res_bind. destruct (is_valid m (r + dr, c + dc)) as [b|e'|] eqn:E.
  - apply IH.
  - intros [= <-]. by apply is_valid_raise in E.
  - done.
Qed.

Lemma get_neighbors_raise m p e : get_neighbors m p = Raise e → e = IndexError.
Proof. destruct p. apply neighbors_loop_raise. Qed.

(** ** Construction, on any matrix *)

(** X4: the grid object that [MazeGrid(g)] gives has its start and goal
    on two different cells within bounds, which hold ['S'] and ['G']; it
    has at least one row and one column, and keeps the matrix, its number
    of rows and the length of its first row. *)
Theorem init_start_goal_distinct g m :
  MazeGrid_init g = Ok m →
  start m ≠ goal m ∧
  (0 <= (start m).1 < rows m ∧ 0 <= (start m).2 < cols m) ∧
  (0 <= (goal m).1 < rows m ∧ 0 <= (goal m).2 < cols m) ∧
  grid_at (grid m) (start m).1 (start m).2 = Ok "S" ∧
  grid_at (grid m) (goal m).1 (goal m).2 = Ok "G" ∧
  grid m = g ∧ rows m = len g ∧ cols m = width g ∧ 0 < rows m ∧ 0 < cols m.
Proof.
  intros Hm. apply init_ok in Hm as (Hg & Hr & Hc & HS & HG).
  destruct HS as (HS1 & HS2 & HS3 & _). destruct HG as (HG1 & HG2 & HG3 & _).
  rewrite Hg, Hr, Hc. split_and!; try done; try lia.
  intros Heq. rewrite Heq in HS3. rewrite HS3 in HG3. discriminate.
Qed.

Lemma init_start_goal_distinct_witness :
  MazeGrid_init maze_SG = Ok (built maze_SG) ∧
  start (built maze_SG) ≠ goal (built maze_SG).
Proof.
  split; [reflexivity|].
  exact (proj1 (init_start_goal_distinct maze_SG (built maze_SG) eq_refl)).
Defined.

(** X5: when [MazeGrid(g)] raises [ValueError], on any matrix, the scan
    has read every cell of the [len(g)] x [len(g[0])] rectangle.  With the
    message about the start no cell of the rectangle holds ['S']; with the
    message about the goal no cell holds ['G'] while some cell holds
    ['S'].  There is no other [ValueError]. *)
Theorem init_value_error g msg :
  MazeGrid_init g = Raise (ValueError msg) →
  (msg = "Start position 'S' not found in maze!" ∧
   ∀ p, 0 <= p.1 < len g → 0 <= p.2 < width g →
        ∃ x, grid_at g p.1 p.2 = Ok x ∧ x ≠ "S") ∨
  (msg = "Goal position 'G' not found in maze!" ∧
   (∀ p, 0 <= p.1 < len g → 0 <= p.2 < width g →
         ∃ x, grid_at g p.1 p.2 = Ok x ∧ x ≠ "G") ∧
   ∃ s, first_occurrence g (len g) (width g) "S" s).
Proof.
  unfold MazeGrid_init. rewrite init_width. unfold res_bind.
  destruct (_find_position g (len g) (width g) "S") as [os|e|] eqn:ES;
    [|intros [= ->]; by apply find_in_rows_raise in ES|done].
  destruct (_find_position g (len g) (width g) "G") as [og|e|] eqn:EG;
    [|intros [= ->]; by apply find_in_rows_raise in EG|done].
  apply find_position_sound in ES. apply find_position_sound in EG.
  destruct os as [s|].
  - destruct og as [t|]; [discriminate|]. intros [= <-]. right.
    split; [done|]. split; [exact EG|]. by exists s.
  - intros [= <-]. left. split; [done|]. exact ES.
Qed.

Lemma init_value_error_witness :
  MazeGrid_init (maze_of_rows ["S "; "  "]) =
    Raise (ValueError "Goal position 'G' not found in maze!") ∧
  ∃ s, first_occurrence (maze_of_rows ["S "; "  "]) 2 2 "S" s.
Proof.
  split; [reflexivity|].
  destruct (init_value_error (maze_of_rows ["S "; "  "])
              "Goal position 'G' not found in maze!" eq_refl)
    as [[Hmsg _]|(_ & _ & Hs)]; [discriminate Hmsg|exact Hs].
Defined.

(** ** Neighbours, on any grid state *)

Lemma adjacent_sym (p q : Cell) : adjacent p q → adjacent q p.
Proof. unfold adjacent. lia. Qed.

Lemma NoDup_around (pos : Cell) : NoDup (around pos).
Proof.
  destruct pos as [r c]. unfold around. simpl.
  repeat (apply NoDup_cons; split;
          [rewrite ?elem_of_cons, elem_of_nil;
           intros H; repeat destruct H as [H|H]; try done;
           injection H; lia|]).
  apply NoDup_nil_2.
Qed.

(** X6: what [get_neighbors] returns is taken from up, down, left, right
    in that order: at most four cells, no cell twice, never the cell it was
    asked about, and every one of them one orthogonal step away. *)
Theorem get_neighbors_shape m pos ns :
  get_neighbors m pos = Ok ns →
  sublist ns (around pos) ∧ NoDup ns ∧ (length ns <= 4)%nat ∧ (pos ∉ ns) ∧
  (∀ q, q ∈ ns → adjacent pos q).
Proof.
  intros Hns. apply get_neighbors_sound in Hns. subst ns. split_and!.
  - apply sublist_filter.
  - apply NoDup_filter, NoDup_around.
  - etrans; [apply length_filter|]. done.
  - intros Hin. apply list_elem_of_filter in Hin as [_ Hin].
    apply elem_of_around in Hin. destruct pos. unfold adjacent in Hin.
    simpl in Hin. lia.
  - intros q Hq. apply list_elem_of_filter in Hq as [_ Hq].
    by apply elem_of_around.
Qed.

Lemma get_neighbors_shape_witness :
  get_neighbors (built maze_3x3) (1, 1) = Ok [(0, 1); (2, 1)] ∧
  NoDup [(0, 1); (2, 1)] ∧ ((1, 1) ∉ [(0, 1); (2, 1)]).
Proof.
  split; [reflexivity|].
  destruct (get_neighbors_shape (built maze_3x3) (1, 1) [(0, 1); (2, 1)]
              eq_refl) as (_ & Hnd & _ & Hnot & _).
  exact (conj Hnd Hnot).
Defined.

(** X7: on a well-formed grid the moves go both ways between passable
    cells: when [q] is a neighbour of the passable cell [p], then [p] is a
    neighbour of [q]; so what is reachable from a passable cell reaches it
    back. *)
Theorem moves_go_both_ways m p q :
  well_formed m → passable m p →
  (move m p q → move m q p) ∧
  (reachable m p q → reachable m q p).
Proof.
  intros Hwf.
  assert (∀ a b, passable m a → move m a b → move m b a) as Hsym.
  { intros a b Ha Hab. apply move_spec in Hab as [Hadj _].
    destruct (get_neighbors_total m b Hwf) as [ns Hns]. exists ns.
    split; [done|]. apply get_neighbors_sound in Hns. subst ns.
    apply list_elem_of_filter. split; [by apply is_valid_true|].
    by apply elem_of_around, adjacent_sym. }
  intros Hp. split; [by apply Hsym|].
  unfold reachable. intros Hpq. revert Hp.
  induction Hpq as [x|x y z Hxy Hyz IH]; intros Hx; [apply rtc_refl|].
  eapply rtc_r; [apply IH|by apply Hsym].
  apply move_spec in Hxy as [_ Hy]. exact Hy.
Qed.

Lemma passable_3x3_origin : passable (built maze_3x3) (0, 0).
Proof. by apply is_valid_true. Qed.

Lemma moves_go_both_ways_witness :
  well_formed (built maze_3x3) ∧ passable (built maze_3x3) (0, 0) ∧
  move (built maze_3x3) (0, 0) (0, 1) ∧ move (built maze_3x3) (0, 1) (0, 0).
Proof.
  split; [apply well_formed_3x3|]. split; [apply passable_3x3_origin|].
  split; [apply move_3x3|].
  exact (proj1 (moves_go_both_ways (built maze_3x3) (0, 0) (0, 1)
                  well_formed_3x3 passable_3x3_origin) move_3x3).
Defined.

(** ** What the search can raise *)

(** X8: the search on a constructed grid, over any matrix, ends: it
    returns a result, or it raises [IndexError], which happens only when
    the matrix is not rectangular.  It raises nothing else. *)
Theorem search_raises_only_index_error g m :
  MazeGrid_init g = Ok m →
  (∃ r, a_star_search m = Ok r) ∨
  (a_star_search m = Raise IndexError ∧ ¬ rectangular g).
Proof.
  intros Hm. pose proof (init_start_passable _ _ Hm) as [Hs _].
  pose proof (search_spec m Hs) as Hspec.
  destruct (a_star_search m) as [r|e|]; [eauto| |done].
  destruct Hspec as [p Hp]. right.
  rewrite (get_neighbors_raise _ _ _ Hp). split; [done|].
  intros Hrect. pose proof (init_well_formed _ _ Hrect Hm) as Hwf.
  destruct (get_neighbors_total m p Hwf) as [ns Hns]. congruence.
Qed.

Lemma search_raises_only_index_error_witness :
  MazeGrid_init [["S"; "G"]; []] = Ok (built [["S"; "G"]; []]) ∧
  a_star_search (built [["S"; "G"]; []]) = Raise IndexError ∧
  ¬ rectangular [["S"; "G"]; []].
Proof.
  split; [reflexivity|].
  destruct (search_raises_only_index_error [["S"; "G"]; []]
              (built [["S"; "G"]; []]) eq_refl) as [[r Hr]|H].
  - vm_compute in Hr. discriminate Hr.
  - exact H.
Defined.

(** ** The frontier during a run *)

Lemma relax_fields m current st n :
  relax m current st n = st ∨
  ∃ gc, g_score st !! current = Some gc ∧
        (g_score st !! n = None ∨
         ∃ gn, g_score st !! n = Some gn ∧ gc + 1 < gn) ∧
        g_score (relax m current st n) = <[n := gc + 1]> (g_score st) ∧
        f_score (relax m current st n) =
          <[n := gc + 1 + manhattan_distance n (goal m)]> (f_score st) ∧
        ((n ∈ open_set_hash st ∧
          open_set (relax m current st n) = open_set st ∧
          counter (relax m current st n) = counter st ∧
          open_set_hash (relax m current st n) = open_set_hash st) ∨
         ((n ∉ open_set_hash st) ∧
          open_set (relax m current st n) =
            open_set st ++
              [(gc + 1 + manhattan_distance n (goal m), counter st + 1, n)] ∧
          counter (relax m current st n) = counter st + 1 ∧
          open_set_hash (relax m current st n) = {[n]} ∪ open_set_hash st)).
Proof.
  unfold relax. destruct (g_score st !! current) as [gc|] eqn:Ec; [|by left].
  destruct (g_score st !! n) as [gn|] eqn:En.
  - destruct (Z.ltb_spec (gc + 1) gn); [|by left].
    right. exists gc. split; [done|]. split; [right; eauto|].
    case_decide; simpl; split_and!; try done; [left|right]; done.
  - right. exists gc. split; [done|]. split; [by left|].
    case_decide; simpl; split_and!; try done; [left|right]; done.
Qed.

Lemma relax_keeps_keys m current st n c :
  is_Some (g_score st !! c) → is_Some (g_score (relax m current st n) !! c).
Proof.
  intros Hc. destruct (relax_fields m current st n)
    as [->|(gc & _ & _ & -> & _)]; [done|].
  apply lookup_insert_is_Some. destruct (decide (n = c)); auto.
Qed.

Lemma relax_assigns m current st n :
  is_Some (g_score st !! current) →
  is_Some (g_score (relax m current st n) !! n).
Proof.
  intros [gc Hc]. unfold relax. rewrite Hc.
  destruct (g_score st !! n) as [gn|] eqn:En.
  - destruct (gc + 1 <? gn); [|by rewrite En].
    case_decide; simpl; rewrite lookup_insert_eq; eauto.
  - case_decide; simpl; rewrite lookup_insert_eq; eauto.
Qed.

Lemma relax_keeps_queue m current st n :
  ∃ l, open_set (relax m current st n) = open_set st ++ l.
Proof.
  destruct (relax_fields m current st n)
    as [->|(gc & _ & _ & _ & _ & [(_ & -> & _)|(_ & -> & _)])].
  - exists []. by rewrite app_nil_r.
  - exists []. by rewrite app_nil_r.
  - eauto.
Qed.

Lemma expand_covers m current ns : ∀ st q,
  is_Some (g_score st !! current) → q ∈ ns →
  is_Some (g_score (expand m current st ns) !! q).
Proof.
  unfold expand. induction ns as [|n ns IH]; intros st q Hcur Hq; simpl.
  - by apply elem_of_nil in Hq.
  - assert (∀ l s c, is_Some (g_score s !! c) →
                     is_Some (g_score (foldl (relax m current) s l) !! c))
      as Hkeep.
    { induction l as [|x l IHl]; intros s c Hc; simpl; [done|].
      by apply IHl, relax_keeps_keys. }
    apply elem_of_cons in Hq as [->|Hq].
    + by apply Hkeep, relax_assigns.
    + apply IH; [|done]. by apply relax_keeps_keys.
Qed.

Lemma remove_first_perm (e : entry) h : e ∈ h → h ≡ₚ e :: remove_first e h.
Proof.
  induction h as [|x h IH]; simpl; [by intros ?%elem_of_nil|].
  intros He. case_decide as Hx; [by subst|].
  apply elem_of_cons in He as [->|He]; [done|].
  rewrite (IH He) at 1. apply Permutation_swap.
Qed.

Lemma heappop_perm h e h' : heappop h = Some (e, h') → h ≡ₚ e :: h'.
Proof.
  unfold heappop. destruct h as [|x h]; [done|]. intros [= <- <-].
  apply remove_first_perm, heap_min_elem.
Qed.

Lemma init_state_frontier m : frontier_inv m (init_state m).
Proof.
  unfold init_state, heappush. split; simpl.
  - intros c. rewrite elem_of_singleton, list_elem_of_singleton. done.
  - apply NoDup_singleton.
  - done.
  - intros k Hk. apply list_elem_of_singleton in Hk as ->. done.
  - apply NoDup_singleton.
  - intros c. destruct (decide (c = start m)) as [->|Hne].
    + by rewrite !lookup_singleton_eq.
    + by rewrite !lookup_singleton_ne.
  - intros e He. apply list_elem_of_singleton in He. by left.
Qed.

Lemma popped_frontier m st f k current open_set' :
  frontier_inv m st →
  heappop (open_set st) = Some ((f, k, current), open_set') →
  frontier_inv m (popped st open_set' current).
Proof.
  intros Hfr Hpop. pose proof (heappop_perm _ _ _ Hpop) as Hperm.
  pose proof (fr_nodup _ _ Hfr) as Hnd.
  pose proof (fr_counters_nodup _ _ Hfr) as Hndk.
  unfold queued_cells, queued_counters in *.
  rewrite Hperm in Hnd, Hndk. simpl in Hnd, Hndk.
  apply NoDup_cons in Hnd as [Hnot Hnd].
  apply NoDup_cons in Hndk as [_ Hndk].
  split; simpl; try done.
  - intros c. rewrite elem_of_difference, elem_of_singleton.
    rewrite (fr_hash _ _ Hfr). unfold queued_cells. rewrite Hperm. simpl.
    rewrite elem_of_cons. split; [intros [[->|?] ?]; done|].
    intros Hc. split; [by right|]. by intros ->.
  - apply Hfr.
  - intros k' Hk'. apply (fr_counter _ _ Hfr). unfold queued_counters.
    rewrite Hperm. simpl. by right.
  - apply Hfr.
  - intros e He. apply (fr_priority _ _ Hfr). rewrite Hperm. by right.
Qed.

Lemma relax_frontier m current st n :
  frontier_inv m st → frontier_inv m (relax m current st n).
Proof.
  intros Hfr. destruct (relax_fields m current st n)
    as [->|(gc & Hc & Hn & Hg & Hf & Hq)]; [done|].
  assert (∀ c, f_score (relax m current st n) !! c =
               (λ v, v + manhattan_distance c (goal m)) <$>
                 g_score (relax m current st n) !! c) as Hfs.
  { intros c. rewrite Hg, Hf. destruct (decide (n = c)) as [->|Hne].
    - by rewrite !lookup_insert_eq.
    - rewrite !lookup_insert_ne by done. apply Hfr. }
  assert (∀ e, e ∈ open_set st →
               e = (0, 0, start m) ∨
               ∃ v, g_score (relax m current st n) !! e.2 = Some v ∧
                    v + manhattan_distance e.2 (goal m) <= e.1.1) as Hold.
  { intros e He. destruct (fr_priority _ _ Hfr e He) as [->|(v & Hv & Hle)];
      [by left|right]. rewrite Hg.
    destruct (decide (n = e.2)) as [->|Hne].
    - rewrite lookup_insert_eq. eexists. split; [done|].
      destruct Hn as [Hn|(gn & Hn & Hlt)]; [congruence|].
      assert (gn = v) by congruence. lia.
    - rewrite lookup_insert_ne by done. eauto. }
  destruct Hq as [(Hin & Hos & Hk & Hh)|(Hin & Hos & Hk & Hh)].
  { split; rewrite ?Hos, ?Hk, ?Hh; try done; apply Hfr. }
  split; rewrite ?Hos, ?Hk, ?Hh; try done.
  - intros c. unfold queued_cells. rewrite fmap_app, elem_of_app. simpl.
    rewrite list_elem_of_singleton, elem_of_union, elem_of_singleton.
    rewrite (fr_hash _ _ Hfr). unfold queued_cells. tauto.
  - unfold queued_cells. rewrite fmap_app. simpl. apply NoDup_app.
    split; [apply Hfr|]. split; [|apply NoDup_singleton].
    intros c Hqc ->%list_elem_of_singleton.
    by apply (fr_hash _ _ Hfr) in Hqc.
  - pose proof (fr_counter_nonneg _ _ Hfr). lia.
  - intros k'. unfold queued_counters. rewrite fmap_app, elem_of_app. simpl.
    rewrite list_elem_of_singleton. pose proof (fr_counter_nonneg _ _ Hfr).
    intros [Hk'| ->]; [|lia]. apply (fr_counter _ _ Hfr) in Hk'. lia.
  - unfold queued_counters. rewrite fmap_app. simpl. apply NoDup_app.
    split; [apply Hfr|]. split; [|apply NoDup_singleton].
    intros k' Hk' ->%list_elem_of_singleton.
    apply (fr_counter _ _ Hfr) in Hk'. lia.
  - intros e. rewrite elem_of_app, list_elem_of_singleton.
    intros [He| ->]; [by apply Hold|]. right. simpl. rewrite Hg.
    rewrite lookup_insert_eq. eexists. split; [done|]. lia.
Qed.

Lemma expand_frontier m current ns : ∀ st,
  frontier_inv m st → frontier_inv m (expand m current st ns).
Proof.
  unfold expand. induction ns as [|n ns IH]; intros st Hfr; simpl; [done|].
  by apply IH, relax_frontier.
Qed.

Lemma init_state_settled m : settled m (init_state m) None.
Proof.
  intros c [v Hc]. left. unfold init_state in *. simpl in *.
  apply lookup_singleton_Some in Hc as [<- _]. by left.
Qed.

Lemma popped_settled m st f k current open_set' :
  settled m st None →
  heappop (open_set st) = Some ((f, k, current), open_set') →
  settled m (popped st open_set' current) (Some current).
Proof.
  intros Hset Hpop c Hc. apply heappop_perm in Hpop.
  destruct (Hset c Hc) as [Hq|[Hq|Hq]]; [|done|by right; right].
  unfold queued_cells in Hq. rewrite Hpop in Hq. simpl in Hq.
  apply elem_of_cons in Hq as [->|Hq]; [right; by left|by left].
Qed.

Lemma relax_settled m current st n :
  frontier_inv m st → settled m st (Some current) →
  settled m (relax m current st n) (Some current).
Proof.
  intros Hfr Hset c Hc.
  destruct (relax_keeps_queue m current st n) as [l Hl].
  assert (∀ x, x ∈ queued_cells (open_set st) →
               x ∈ queued_cells (open_set (relax m current st n))) as Hmono.
  { intros x Hx. unfold queued_cells in *. rewrite Hl, fmap_app.
    apply elem_of_app. by left. }
  destruct (relax_fields m current st n)
    as [Heq|(gc & Hcur & Hn & Hg & Hf & Hq)].
  { rewrite Heq in *. by apply Hset. }
  destruct (decide (n = c)) as [->|Hne].
  - left. destruct Hq as [(Hin & _)|(_ & Hos & _)].
    + apply Hmono. by apply (fr_hash _ _ Hfr).
    + unfold queued_cells. rewrite Hos, fmap_app. apply elem_of_app. right.
      simpl. by left.
  - rewrite Hg, lookup_insert_ne in Hc by done.
    destruct (Hset c Hc) as [Hqc|[Hqc|[Hgoal Hqc]]];
      [left; by apply Hmono|right; by left|right; right].
    split; [done|]. intros q Hq'. by apply relax_keeps_keys, Hqc.
Qed.

Lemma expand_settled m current ns : ∀ st,
  frontier_inv m st → settled m st (Some current) →
  settled m (expand m current st ns) (Some current).
Proof.
  unfold expand. induction ns as [|n ns IH]; intros st Hfr Hset; simpl;
    [done|].
  apply IH; [by apply relax_frontier|by apply relax_settled].
Qed.

Section Frontier.
Variable maze : MazeGrid.
Hypothesis start_passable : passable maze (start maze).

(** At the head of the loop every cell with a cost is queued or has been
    expanded. *)
Lemma step_frontier st st' :
  search_inv maze st → frontier_inv maze st → settled maze st None →
  a_star_step maze st = Ok (Continue st') →
  frontier_inv maze st' ∧ settled maze st' None.
Proof.
  intros Hinv Hfr Hset. unfold a_star_step.
  destruct (heappop (open_set st)) as [[[[f k] current] open_set']|] eqn:Epop;
    [|done].
  case_decide as Hgoal.
  { destruct (reconstruct_path _ _); done. }
  destruct (get_neighbors maze current) as [ns| |] eqn:En; try done.
  simpl. intros [= <-].
  pose proof (popped_frontier _ _ _ _ _ _ Hfr Epop) as Hfr1.
  pose proof (popped_settled _ _ _ _ _ _ Hset Epop) as Hset1.
  pose proof (expand_frontier maze current ns _ Hfr1) as Hfr2.
  pose proof (expand_settled maze current ns _ Hfr1 Hset1) as Hset2.
  split; [done|]. intros c Hc.
  destruct (Hset2 c Hc) as [Hq|[[= ->]|Hq]]; [by left| |by right; right].
  right. right. split; [done|]. intros q (ns' & Hns' & Hq).
  assert (ns' = ns) as -> by congruence.
  apply expand_covers; [|done]. simpl.
  apply heappop_spec in Epop as (Hin & _ & _).
  apply (inv_open _ _ Hinv _ Hin).
Qed.

Lemma loop_head_frontier st :
  loop_head maze st → frontier_inv maze st ∧ settled maze st None.
Proof.
  induction 1 as [|st st' Hhead IH Hstep].
  - split; [apply init_state_frontier|apply init_state_settled].
  - destruct IH as [Hfr Hset]. eapply step_frontier; try done.
    by apply loop_head_inv.
Qed.

(** When the loop ends on an empty queue, it has started a round with
    the queue empty. *)
Lemma loop_none fuel : ∀ st,
  loop_head maze st → a_star_loop fuel maze st = Ok None →
  ∃ st', loop_head maze st' ∧ open_set st' = [].
Proof.
  induction fuel as [|fuel IH]; intros st Hhead; simpl; [done|].
  destruct (a_star_step maze st) as [[r|st']| |] eqn:Estep; simpl; try done.
  - intros [= ->]. exists st. split; [done|].
    unfold a_star_step in Estep.
    destruct (open_set st) as [|x h]; [done|]. simpl in Estep.
    destruct (heap_min x h) as [[f k] current].
    case_decide; [by destruct (reconstruct_path _ _)|].
    by destruct (get_neighbors maze current).
  - apply IH. by eapply lh_next.
Qed.

(** With the queue empty at the head of the loop, every cell that the
    start reaches has a cost, and the goal has none. *)
Lemma empty_queue_unreachable st :
  loop_head maze st → open_set st = [] →
  ¬ reachable maze (start maze) (goal maze).
Proof.
  intros Hhead Hempty Hreach.
  destruct (loop_head_frontier st Hhead) as [_ Hset].
  pose proof (loop_head_inv maze start_passable st Hhead) as Hinv.
  assert (∀ c, reachable maze (start maze) c → is_Some (g_score st !! c))
    as Hall.
  { intros c Hc. unfold reachable in Hc. revert c Hc. apply rtc_ind_r.
    - rewrite (inv_start_g _ _ Hinv). eauto.
    - intros b c Hb Hbc IH.
      destruct (Hset b IH) as [Hq|[Hq|[_ Hq]]]; [|done|by apply Hq].
      rewrite Hempty in Hq. by apply elem_of_nil in Hq. }
  destruct (Hset _ (Hall _ Hreach)) as [Hq|[Hq|[Hq _]]]; [|done|done].
  rewrite Hempty in Hq. by apply elem_of_nil in Hq.
Qed.

Lemma during_run_frontier st : during_run maze st → frontier_inv maze st.
Proof.
  intros [Hhead|Hfor]; [by apply loop_head_frontier|].
  destruct Hfor as (st0 & f & k & current & open_set' & done & todo &
                    Hhead & Hpop & _ & _ & ->).
  apply expand_frontier. eapply popped_frontier; [|done].
  by apply loop_head_frontier.
Qed.
End Frontier.

Lemma state_after_loop_head n g :
  loop_head (built g) (state_after n g).
Proof.
  unfold state_after.
  destruct (run_rounds n (built g) (init_state (built g))) as [st|] eqn:E;
    simpl; [|apply lh_init].
  eapply run_rounds_loop_head; [apply lh_init|exact E].
Qed.

(** X9: during a run, [open_set_hash] holds exactly the cells that have an
    entry in [open_set]; no cell has two entries at once; and the sequence
    numbers of the entries are pairwise different and lie between 0 and
    [counter]. *)
Theorem frontier_has_each_cell_once m st :
  passable m (start m) → during_run m st →
  (∀ c, c ∈ open_set_hash st ↔ c ∈ queued_cells (open_set st)) ∧
  NoDup (queued_cells (open_set st)) ∧
  NoDup (queued_counters (open_set st)) ∧
  (∀ k, k ∈ queued_counters (open_set st) → 0 <= k <= counter st).
Proof.
  intros Hs Hrun. pose proof (during_run_frontier m Hs st Hrun) as Hfr.
  split_and!; apply Hfr.
Qed.

Lemma passable_detour_start :
  passable (built maze_detour) (start (built maze_detour)).
Proof. by apply is_valid_true. Qed.

Lemma during_run_state_after n g : during_run (built g) (state_after n g).
Proof. left. apply state_after_loop_head. Qed.

Lemma frontier_has_each_cell_once_witness :
  passable (built maze_detour) (start (built maze_detour)) ∧
  during_run (built maze_detour) (state_after 17 maze_detour) ∧
  queued_cells (open_set (state_after 17 maze_detour)) = [(3, 5); (2, 6)] ∧
  NoDup (queued_cells (open_set (state_after 17 maze_detour))).
Proof.
  split; [apply passable_detour_start|].
  split; [apply during_run_state_after|]. split; [vm_compute; reflexivity|].
  exact (proj1 (proj2 (frontier_has_each_cell_once (built maze_detour)
                         (state_after 17 maze_detour) passable_detour_start
                         (during_run_state_after 17 maze_detour)))).
Defined.

(** X10: during a run, [f_score] and [g_score] have the same keys, and the
    [f_score] of a cell is its [g_score] plus its Manhattan distance to
    the goal. *)
Theorem f_score_is_g_score_plus_heuristic m st c :
  passable m (start m) → during_run m st →
  f_score st !! c =
    (λ v, v + manhattan_distance c (goal m)) <$> g_score st !! c.
Proof.
  intros Hs Hrun. apply (during_run_frontier m Hs st Hrun).
Qed.

Lemma f_score_is_g_score_plus_heuristic_witness :
  passable (built maze_detour) (start (built maze_detour)) ∧
  during_run (built maze_detour) (state_after 17 maze_detour) ∧
  g_score (state_after 17 maze_detour) !! (3, 5) = Some 6 ∧
  f_score (state_after 17 maze_detour) !! (3, 5) = Some 11.
Proof.
  split; [apply passable_detour_start|].
  split; [apply during_run_state_after|].
  assert (g_score (state_after 17 maze_detour) !! (3, 5) = Some 6) as Hg
    by (vm_compute; reflexivity).
  split; [exact Hg|].
  rewrite (f_score_is_g_score_plus_heuristic (built maze_detour)
             (state_after 17 maze_detour) (3, 5) passable_detour_start
             (during_run_state_after 17 maze_detour)).
  rewrite Hg. reflexivity.
Defined.

(** X11: during a run, the priority of a queued entry is never below the
    current [f_score] of its cell, the entry [(0, 0, start)] pushed before
    the loop apart.  It can be above: a cost that drops while the cell is
    queued leaves the entry as it is. *)
Theorem queued_priority_not_below_f_score m st e :
  passable m (start m) → during_run m st → e ∈ open_set st →
  e = (0, 0, start m) ∨ ∃ fv, f_score st !! e.2 = Some fv ∧ fv <= e.1.1.
Proof.
  intros Hs Hrun He. pose proof (during_run_frontier m Hs st Hrun) as Hfr.
  destruct (fr_priority _ _ Hfr e He) as [->|(v & Hv & Hle)]; [by left|].
  right. rewrite (fr_fscore _ _ Hfr), Hv. simpl. eauto.
Qed.

Lemma entry_queued_after_17 :
  (15, 16, (3, 5)) ∈ open_set (state_after 17 maze_detour).
Proof.
  assert (open_set (state_after 17 maze_detour)
          = [(15, 16, (3, 5)); (13, 17, (2, 6))]) as ->
    by (vm_compute; reflexivity).
  by left.
Qed.

Lemma queued_priority_not_below_f_score_witness :
  passable (built maze_detour) (start (built maze_detour)) ∧
  during_run (built maze_detour) (state_after 17 maze_detour) ∧
  (15, 16, (3, 5)) ∈ open_set (state_after 17 maze_detour) ∧
  ∃ fv, f_score (state_after 17 maze_detour) !! (3, 5) = Some fv ∧ fv <= 15.
Proof.
  split; [apply passable_detour_start|].
  split; [apply during_run_state_after|].
  split; [apply entry_queued_after_17|].
  destruct (queued_priority_not_below_f_score (built maze_detour)
              (state_after 17 maze_detour) (15, 16, (3, 5))
              passable_detour_start (during_run_state_after 17 maze_detour)
              entry_queued_after_17) as [Heq|H].
  - discriminate Heq.
  - exact H.
Defined.

(** ** Finding a path whenever there is one *)

(** X12: on a grid constructed over a rectangular matrix the search
    returns a path exactly when the goal can be reached from the start by
    moves of the maze; so it returns [None] exactly when it cannot. *)
Theorem search_finds_path_iff_reachable g m :
  rectangular g → MazeGrid_init g = Ok m →
  (reachable m (start m) (goal m) ↔ ∃ path, a_star_search m = Ok (Some path)) ∧
  (¬ reachable m (start m) (goal m) ↔ a_star_search m = Ok None).
Proof.
  intros Hrect Hm. pose proof (init_well_formed _ _ Hrect Hm) as Hwf.
  apply init_start_passable in Hm as [Hs _].
  pose proof (search_spec m Hs) as Hspec.
  assert (a_star_search m = Ok None → ¬ reachable m (start m) (goal m))
    as Hnone.
  { intros Heq. destruct (loop_none m _ _ (lh_init m) Heq)
      as (st & Hhead & Hempty).
    by eapply empty_queue_unreachable. }
  destruct (a_star_search m) as [[path|]|e|] eqn:E.
  - assert (reachable m (start m) (goal m)) by by eapply route_reachable.
    split; split; try done; eauto.
  - specialize (Hnone eq_refl). split; split; try done.
    intros [path Hpath]. discriminate.
  - destruct Hspec as [p Hp].
    destruct (get_neighbors_total m p Hwf) as [ns Hns]. congruence.
  - done.
Qed.

Lemma rectangular_3x3 : rectangular maze_3x3.
Proof.
  intros row Hrow. unfold maze_3x3 in Hrow. simpl in Hrow.
  rewrite !elem_of_cons, elem_of_nil in Hrow.
  by destruct Hrow as [->|[->|[->|[]]]].
Qed.

Lemma search_finds_path_iff_reachable_witness :
  rectangular maze_3x3 ∧ MazeGrid_init maze_3x3 = Ok (built maze_3x3) ∧
  reachable (built maze_3x3) (0, 0) (2, 2).
Proof.
  split; [apply rectangular_3x3|]. split; [reflexivity|].
  apply (proj1 (search_finds_path_iff_reachable maze_3x3 (built maze_3x3)
                  rectangular_3x3 eq_refl)).
  eexists. vm_compute. reflexivity.
Defined.

(** ** Path reconstruction, on any predecessor map *)

Lemma reconstruct_loop_chain (cf : gmap Cell Cell) fuel : ∀ cur acc r,
  reconstruct_loop fuel cf cur acc = Ok r →
  ∃ l, r = acc ++ l ∧
       linked (λ a b, cf !! a = Some b) (cur :: l) ∧
       (∃ root, last (cur :: l) = Some root ∧ cf !! root = None) ∧
       (length l < fuel)%nat.
Proof.
  induction fuel as [|fuel IH]; intros cur acc r; simpl; [done|].
  destruct (cf !! cur) as [p|] eqn:E.
  - intros Hr. apply IH in Hr as (l & -> & Hlink & Hroot & Hlen).
    exists (p :: l). rewrite <- app_assoc. split; [done|].
    split; [by split|]. split; [done|]. simpl. lia.
  - intros [= <-]. exists []. rewrite app_nil_r. split; [done|].
    split; [done|]. split; [by exists cur|]. simpl. lia.
Qed.

(** X13: whenever [reconstruct_path] returns, on any predecessor map, the
    path ends with the cell it was asked about, begins with a cell that
    has no predecessor, gives every cell directly after its predecessor,
    and has at most one cell more than the map has entries. *)
Theorem reconstruct_path_follows_links (cf : gmap Cell Cell) cur path :
  reconstruct_path cf cur = Ok path →
  last path = Some cur ∧
  (∃ root, head path = Some root ∧ cf !! root = None) ∧
  linked (λ a b, cf !! b = Some a) path ∧
  (length path <= S (size cf))%nat.
Proof.
  unfold reconstruct_path, res_bind.
  destruct (reconstruct_loop (S (size cf)) cf cur [cur]) as [r| |] eqn:E;
    try done.
  intros [= <-]. apply reconstruct_loop_chain in E
    as (l & -> & Hlink & Hroot & Hlen).
  change ([cur] ++ l) with (cur :: l).
  rewrite last_reverse, head_reverse, length_reverse. split; [done|].
  split; [done|]. split; [|simpl; lia].
  apply (linked_reverse (λ a b, cf !! b = Some a)). exact Hlink.
Qed.

Lemma reconstruct_path_follows_links_witness :
  reconstruct_path {[ (0, 1) := (0, 0); (0, 2) := (0, 1) ]} (0, 2)
    = Ok [(0, 0); (0, 1); (0, 2)] ∧
  last [(0, 0); (0, 1); (0, 2)] = Some (0, 2).
Proof.
  split; [vm_compute; reflexivity|].
  refine (proj1 (reconstruct_path_follows_links
                   {[ (0, 1) := (0, 0); (0, 2) := (0, 1) ]} (0, 2)
                   [(0, 0); (0, 1); (0, 2)] _)).
  vm_compute. reflexivity.
Defined.

(** ** The returned path *)

Lemma linked_lower_below st l : ∀ a,
  linked (lower st) (a :: l) → ∀ x, x ∈ l → lower st a x.
Proof.
  induction l as [|b l IH]; intros a Hl x Hx; [by apply elem_of_nil in Hx|].
  destruct Hl as [Hab Hl]. apply elem_of_cons in Hx as [->|Hx]; [done|].
  specialize (IH b Hl x Hx).
  destruct Hab as (ga & gb & Ha & Hb & Hlt).
  destruct IH as (gb' & gx & Hb' & Hx' & Hlt').
  exists ga, gx. split_and!; [done|done|]. assert (gb = gb') by congruence. lia.
Qed.

Lemma linked_lower_NoDup st l : linked (lower st) l → NoDup l.
Proof.
  induction l as [|a l IH]; intros Hl; [apply NoDup_nil_2|].
  apply NoDup_cons. split.
  - intros Ha. destruct (linked_lower_below st l a Hl a Ha)
      as (ga & ga' & H1 & H2 & Hlt).
    assert (ga = ga') by congruence. lia.
  - apply IH. destruct l as [|b l]; [done|]. by destruct Hl.
Qed.

Section Returned.
Variable maze : MazeGrid.
Hypothesis start_passable : passable maze (start maze).

(** A path that the loop returns was reconstructed in a round that
    popped the goal. *)
Lemma loop_some fuel : ∀ st path,
  loop_head maze st → a_star_loop fuel maze st = Ok (Some path) →
  ∃ st' f k open_set',
    loop_head maze st' ∧
    heappop (open_set st') = Some ((f, k, goal maze), open_set') ∧
    reconstruct_path (came_from st') (goal maze) = Ok path.
Proof.
  induction fuel as [|fuel IH]; intros st path Hhead; simpl; [done|].
  destruct (a_star_step maze st) as [[r|st']| |] eqn:Estep; simpl; try done.
  - intros [= ->]. exists st. unfold a_star_step in Estep.
    destruct (heappop (open_set st)) as [[[[f k] current] open_set']|] eqn:Ep;
      [|done].
    case_decide as Hgoal.
    + subst current. exists f, k, open_set'. split; [done|]. split; [done|].
      simpl in Estep.
      destruct (reconstruct_path (came_from st) (goal maze)); simpl in Estep;
        congruence.
    + by destruct (get_neighbors maze current).
  - apply IH. by eapply lh_next.
Qed.

Lemma returned_path_NoDup path :
  a_star_search maze = Ok (Some path) → NoDup path.
Proof.
  intros Hpath.
  destruct (loop_some _ _ _ (lh_init maze) Hpath)
    as (st & f & k & open_set' & Hhead & Hpop & Hrec).
  pose proof (loop_head_inv maze start_passable st Hhead) as Hinv.
  unfold reconstruct_path, res_bind in Hrec.
  destruct (reconstruct_loop _ _ _ _) as [r| |] eqn:E; try done.
  injection Hrec as <-. apply reconstruct_loop_chain in E
    as (l & -> & Hlink & _). rewrite reverse_Permutation.
  change ([goal maze] ++ l) with (goal maze :: l).
  apply (linked_lower_NoDup st). eapply linked_impl; [|exact Hlink].
  intros a b Hab. destruct (inv_link _ _ Hinv _ _ Hab)
    as (_ & ga & gb & Ha & Hb & Hlt).
  by exists ga, gb.
Qed.
End Returned.

(** X14: a path returned by the search on a constructed grid visits no
    cell twice; it has at least two cells and at most as many as the grid
    has cells; and it has at least as many steps as the Manhattan distance
    from start to goal. *)
Theorem returned_path_is_simple g m path :
  MazeGrid_init g = Ok m → a_star_search m = Ok (Some path) →
  NoDup path ∧
  (2 <= length path <= Z.to_nat (rows m * cols m))%nat ∧
  manhattan_distance (start m) (goal m) <= Z.of_nat (length path) - 1.
Proof.
  intros Hm Hpath. pose proof (init_start_passable _ _ Hm) as [Hs _].
  pose proof (search_spec m Hs) as Hroute. rewrite Hpath in Hroute.
  pose proof (returned_path_NoDup m Hs path Hpath) as Hnd.
  destruct (route_steps _ _ _ _ Hs Hroute) as [Hadj Hpass].
  split; [done|]. split; [split|].
  - destruct Hroute as (Hh & Hl & _).
    destruct path as [|a [|b t]]; simpl in *; try done; [|lia].
    injection Hh as ->. injection Hl as Heq.
    apply init_ok in Hm as (_ & _ & _ & HS & HG).
    destruct HS as (_ & _ & HS & _). destruct HG as (_ & _ & HG & _).
    rewrite <- Heq, HS in HG. discriminate.
  - etrans; [|apply length_all_cells].
    apply submseteq_length, NoDup_submseteq; [done|].
    intros c Hc. apply elem_of_all_cells.
    by destruct (Hpass c Hc) as (? & ? & _).
  - destruct Hroute as (Hh & Hl & _).
    by apply linked_adjacent_manhattan.
Qed.

Lemma returned_path_is_simple_witness :
  MazeGrid_init maze_detour = Ok (built maze_detour) ∧
  a_star_search (built maze_detour) = Ok (Some long_route) ∧
  NoDup long_route.
Proof.
  split; [reflexivity|].
  assert (a_star_search (built maze_detour) = Ok (Some long_route)) as Hp
    by (vm_compute; reflexivity).
  split; [exact Hp|].
  exact (proj1 (returned_path_is_simple maze_detour (built maze_detour)
                  long_route eq_refl Hp)).
Defined.

(** ** What the costs mean *)

Lemma route_snoc m p c n path :
  route m p c path → move m c n → route m p n (path ++ [n]).
Proof.
  intros (Hh & Hl & Hlink) Hmove. split_and!.
  - destruct path; [done|]. exact Hh.
  - by rewrite last_snoc.
  - apply linked_snoc; [done|]. intros b Hb. congruence.
Qed.

Lemma init_state_costs m : costs_are_routes m (init_state m).
Proof.
  intros c v Hc. unfold init_state in Hc. simpl in Hc.
  apply lookup_singleton_Some in Hc as [<- <-].
  exists [start m]. by split.
Qed.

Lemma relax_costs m current st n :
  move m current n → costs_are_routes m st →
  costs_are_routes m (relax m current st n).
Proof.
  intros Hmove Hcosts.
  destruct (relax_fields m current st n)
    as [->|(gc & Hcur & _ & Hg & _)]; [done|].
  intros c v. rewrite Hg. destruct (decide (n = c)) as [->|Hne].
  - rewrite lookup_insert_eq. intros [= <-].
    destruct (Hcosts _ _ Hcur) as (path & Hroute & Hlen).
    exists (path ++ [c]). split; [by eapply route_snoc|].
    rewrite length_app. simpl. lia.
  - rewrite lookup_insert_ne by done. apply Hcosts.
Qed.

Lemma expand_costs m current ns : ∀ st,
  (∀ q, q ∈ ns → move m current q) → costs_are_routes m st →
  costs_are_routes m (expand m current st ns).
Proof.
  unfold expand. induction ns as [|n ns IH]; intros st Hmoves Hcosts; simpl;
    [done|].
  apply IH; [intros q Hq; apply Hmoves; by right|].
  apply relax_costs; [apply Hmoves; by left|done].
Qed.

Lemma loop_head_costs m st : loop_head m st → costs_are_routes m st.
Proof.
  induction 1 as [|st st' Hhead IH Hstep]; [apply init_state_costs|].
  revert Hstep. unfold a_star_step.
  destruct (heappop (open_set st)) as [[[[f k] current] open_set']|]; [|done].
  case_decide; [by destruct (reconstruct_path _ _)|].
  destruct (get_neighbors m current) as [ns| |] eqn:En; try done.
  simpl. intros [= <-].
  apply expand_costs; [intros q Hq; by exists ns|].
  intros c' v' Hc'. exact (IH c' v' Hc').
Qed.

(** X15: during a run every [g_score] is the number of steps of some
    route of the maze from the start to the cell; so no cost is below the
    true distance. *)
Theorem cost_is_length_of_a_route m st c v :
  during_run m st → g_score st !! c = Some v →
  ∃ path, route m (start m) c path ∧ Z.of_nat (length path) - 1 = v.
Proof.
  intros Hrun. assert (costs_are_routes m st) as Hcosts; [|apply Hcosts].
  destruct Hrun as [Hhead|Hfor]; [by apply loop_head_costs|].
  destruct Hfor as (st0 & f & k & current & open_set' & ns1 & ns2 &
                    Hhead & _ & _ & Hns & ->).
  apply expand_costs.
  - intros q Hq. exists (ns1 ++ ns2). split; [done|].
    apply elem_of_app. by left.
  - intros c' v' Hc'. exact (loop_head_costs m st0 Hhead c' v' Hc').
Qed.

Lemma cost_is_length_of_a_route_witness :
  during_run (built maze_detour) (state_after 17 maze_detour) ∧
  g_score (state_after 17 maze_detour) !! (3, 5) = Some 6 ∧
  ∃ path, route (built maze_detour) (2, 0) (3, 5) path ∧
          Z.of_nat (length path) - 1 = 6.
Proof.
  split; [apply during_run_state_after|].
  assert (g_score (state_after 17 maze_detour) !! (3, 5) = Some 6) as Hg
    by (vm_compute; reflexivity).
  split; [exact Hg|].
  exact (cost_is_length_of_a_route (built maze_detour)
           (state_after 17 maze_detour) (3, 5) 6
           (during_run_state_after 17 maze_detour) Hg).
Defined.

(** X16: a round of the loop never forgets a cell and never raises a
    cost: a cell that has a cost before the round has one after it, not
    larger; and a predecessor, once recorded, is only ever replaced. *)
Theorem costs_only_drop m st st' c v :
  a_star_step m st = Ok (Continue st') →
  g_score st !! c = Some v →
  (∃ v', g_score st' !! c = Some v' ∧ v' <= v) ∧
  (is_Some (came_from st !! c) → is_Some (came_from st' !! c)).
Proof.
  unfold a_star_step.
  destruct (heappop (open_set st)) as [[[[f k] current] open_set']|]; [|done].
  case_decide; [by destruct (reconstruct_path _ _)|].
  destruct (get_neighbors m current) as [ns| |]; try done.
  simpl. intros [= <-].
  change (g_score st) with (g_score (popped st open_set' current)).
  change (came_from st) with (came_from (popped st open_set' current)).
  generalize (popped st open_set' current). clear st.
  unfold expand. revert v. induction ns as [|n ns IH]; intros v st Hc; simpl.
  { split; [exists v; split; [done|lia]|done]. }
  assert ((∃ v1, g_score (relax m current st n) !! c = Some v1 ∧ v1 <= v) ∧
          (is_Some (came_from st !! c) →
           is_Some (came_from (relax m current st n) !! c)))
    as [(v1 & Hv1 & Hle) Hcf].
  { destruct (relax_cases m current st n)
      as [->|(gc & _ & Hn & -> & -> & _)];
      [split; [exists v; split; [done|lia]|done]|].
    destruct (decide (n = c)) as [->|Hne].
    - rewrite !lookup_insert_eq. split; [|eauto].
      exists (gc + 1). split; [done|].
      destruct Hn as [Hn|(gn & Hn & Hlt)]; [congruence|].
      assert (gn = v) by congruence. lia.
    - rewrite !lookup_insert_ne by done.
      split; [exists v; split; [done|lia]|done]. }
  destruct (IH v1 _ Hv1) as [(v' & Hv' & Hle') Hcf'].
  split; [exists v'; split; [done|lia]|]. auto.
Qed.

Lemma costs_only_drop_witness :
  a_star_step (built maze_detour) (state_after 16 maze_detour)
    = Ok (Continue (state_after 17 maze_detour)) ∧
  g_score (state_after 16 maze_detour) !! (3, 5) = Some 10 ∧
  ∃ v', g_score (state_after 17 maze_detour) !! (3, 5) = Some v' ∧ v' <= 10.
Proof.
  assert (a_star_step (built maze_detour) (state_after 16 maze_detour)
          = Ok (Continue (state_after 17 maze_detour))) as Hstep
    by (vm_compute; reflexivity).
  assert (g_score (state_after 16 maze_detour) !! (3, 5) = Some 10) as Hg
    by (vm_compute; reflexivity).
  split; [exact Hstep|]. split; [exact Hg|].
  exact (proj1 (costs_only_drop (built maze_detour)
                  (state_after 16 maze_detour) (state_after 17 maze_detour)
                  (3, 5) 10 Hstep Hg)).
Defined.

(** ** A maze typed at the console *)

Lemma elem_of_concat {A} (x : A) (ls : list (list A)) :
  x ∈ concat ls ↔ ∃ l, l ∈ ls ∧ x ∈ l.
Proof.
  induction ls as [|l ls IH]; simpl.
  - split; [by intros ?%elem_of_nil|]. by intros (l & ?%elem_of_nil & _).
  - rewrite elem_of_app, IH. split.
    + intros [Hx|(l' & Hl' & Hx)]; [exists l; split; [by left|done]|].
      exists l'. split; [by right|done].
    + intros (l' & Hl' & Hx). apply elem_of_cons in Hl' as [->|Hl']; eauto.
Qed.

Lemma get_maze_dimensions_spec py_int : ∀ stdin nrows ncols stdin',
  get_maze_dimensions py_int stdin = Some (nrows, ncols, stdin') →
  0 < nrows ∧ 0 < ncols ∧ suffix stdin' stdin.
Proof.
  assert (∀ n stdin, (length stdin <= n)%nat → ∀ nrows ncols stdin',
            get_maze_dimensions py_int stdin = Some (nrows, ncols, stdin') →
            0 < nrows ∧ 0 < ncols ∧ suffix stdin' stdin) as Hind.
  { induction n as [|n IH]; intros stdin Hlen nrows ncols stdin'.
    - destruct stdin; [done|simpl in Hlen; lia].
    - destruct stdin as [|line1 stdin1]; [done|]. simpl in *.
      destruct (py_int line1) as [r|].
      + destruct stdin1 as [|line2 stdin2]; [done|]. simpl in *.
        destruct (py_int line2) as [c|].
        * destruct (Z.ltb_spec 0 r); destruct (Z.ltb_spec 0 c); simpl.
          -- intros [= <- <- <-]. split_and!; [done|done|].
             by do 2 apply suffix_cons_r.
          -- intros H'. apply IH in H' as (? & ? & ?); [|lia].
             split_and!; [done|done|]. by do 2 apply suffix_cons_r.
          -- intros H'. apply IH in H' as (? & ? & ?); [|lia].
             split_and!; [done|done|]. by do 2 apply suffix_cons_r.
          -- intros H'. apply IH in H' as (? & ? & ?); [|lia].
             split_and!; [done|done|]. by do 2 apply suffix_cons_r.
        * intros H'. apply IH in H' as (? & ? & ?); [|lia].
          split_and!; [done|done|]. by do 2 apply suffix_cons_r.
      + intros H'. apply IH in H' as (? & ? & ?); [|lia].
        split_and!; [done|done|]. by apply suffix_cons_r. }
  intros stdin. by apply (Hind (length stdin)).
Qed.

Lemma read_row_spec ncols : ∀ stdin row stdin',
  read_row ncols stdin = Some (row, stdin') →
  len row = ncols ∧
  filter (λ l : line, len l = ncols) stdin =
    row :: filter (λ l : line, len l = ncols) stdin'.
Proof.
  induction stdin as [|row_input stdin IH]; intros row stdin'; simpl; [done|].
  rewrite filter_cons.
  destruct (Z.eqb_spec (len row_input) ncols) as [Heq|Hne].
  - intros [= <- <-]. by rewrite decide_True.
  - rewrite decide_False by done. apply IH.
Qed.

Lemma read_rows_spec ncols n : ∀ stdin acc maze stdin',
  read_rows n ncols stdin acc = Some (maze, stdin') →
  maze = acc ++ take n (filter (λ l : line, len l = ncols) stdin) ∧
  (n <= length (filter (λ l : line, len l = ncols) stdin))%nat.
Proof.
  induction n as [|n IH]; intros stdin acc maze stdin'; simpl.
  - intros [= <- <-]. rewrite app_nil_r. split; [done|lia].
  - destruct (read_row ncols stdin) as [[row stdin1]|] eqn:E; [|done].
    apply read_row_spec in E as (Hlen & Hf). rewrite Hf.
    intros Hrec. apply IH in Hrec as [-> Hle]. simpl.
    rewrite <- app_assoc. split; [done|lia].
Qed.

Lemma search_total m :
  well_formed m → passable m (start m) → ∃ r, a_star_search m = Ok r.
Proof.
  intros Hwf Hs. pose proof (search_spec m Hs) as Hspec.
  destruct (a_star_search m) as [r|e|]; [eauto| |done].
  destruct Hspec as [p Hp].
  destruct (get_neighbors_total m p Hwf) as [ns Hns]. congruence.
Qed.

Lemma custom_maze_shape py_int stdin maze :
  create_custom_maze py_int stdin = Some maze →
  ∃ nrows ncols stdin',
    get_maze_dimensions py_int stdin = Some (nrows, ncols, stdin') ∧
    0 < nrows ∧ 0 < ncols ∧ len maze = nrows ∧
    maze = take (Z.to_nat nrows) (filter (λ l : line, len l = ncols) stdin') ∧
    "S" ∈ concat maze ∧ "G" ∈ concat maze.
Proof.
  unfold create_custom_maze.
  destruct (get_maze_dimensions py_int stdin) as [[[nrows ncols] stdin']|]
    eqn:Ed; [|done].
  destruct (read_rows (Z.to_nat nrows) ncols stdin' []) as [[mz rest]|] eqn:Er;
    [|done].
  destruct (bool_decide ("S" ∉ concat mz)) eqn:E1; [done|].
  destruct (bool_decide ("G" ∉ concat mz)) eqn:E2; [done|].
  simpl. intros [= <-].
  apply bool_decide_eq_false in E1, E2.
  apply dec_stable in E1, E2.
  apply get_maze_dimensions_spec in Ed as (Hr & Hc & _).
  apply read_rows_spec in Er as [-> Hle]. simpl in *.
  exists nrows, ncols, stdin'. split_and!; try done.
  unfold len in *. rewrite length_take. lia.
Qed.

(** X17: a maze that [create_custom_maze] returns has, row by row, the
    first lines that were typed after the dimensions with as many
    characters as the number of columns asked for, as many lines as the
    number of rows asked for; lines with another number of characters are
    skipped, and every row has that number of cells. *)
Theorem custom_maze_rows py_int stdin maze :
  create_custom_maze py_int stdin = Some maze →
  ∃ nrows ncols stdin',
    get_maze_dimensions py_int stdin = Some (nrows, ncols, stdin') ∧
    0 < nrows ∧ 0 < ncols ∧ len maze = nrows ∧
    maze = take (Z.to_nat nrows) (filter (λ l : line, len l = ncols) stdin') ∧
    ∀ row, row ∈ maze → len row = ncols.
Proof.
  intros Hmaze. destruct (custom_maze_shape py_int stdin maze Hmaze)
    as (nrows & ncols & stdin' & Hd & Hr & Hc & Hlen & Hrows & _).
  exists nrows, ncols, stdin'. split_and!; try done.
  intros row Hrow. rewrite Hrows in Hrow.
  apply list_elem_of_lookup in Hrow as [i Hi].
  apply lookup_take_Some in Hi as [Hi _].
  by apply list_elem_of_lookup_2, list_elem_of_filter in Hi as [Hi _].
Qed.

Lemma custom_maze_rows_witness :
  create_custom_maze small_int typed_lines = Some [["S"; "é"; "G"]] ∧
  ∃ nrows ncols stdin',
    get_maze_dimensions small_int typed_lines = Some (nrows, ncols, stdin') ∧
    0 < nrows ∧ 0 < ncols ∧ len [["S"; "é"; "G"]] = nrows ∧
    [["S"; "é"; "G"]] =
      take (Z.to_nat nrows) (filter (λ l : line, len l = ncols) stdin') ∧
    ∀ row, row ∈ [["S"; "é"; "G"]] → len row = ncols.
Proof.
  split; [reflexivity|].
  exact (custom_maze_rows small_int typed_lines [["S"; "é"; "G"]] eq_refl).
Defined.

(** X18: a maze that [create_custom_maze] returns is rectangular and
    holds both markers, so [MazeGrid] accepts it without raising, and the
    search on that grid ends with a result without raising. *)
Theorem custom_maze_is_accepted py_int stdin maze :
  create_custom_maze py_int stdin = Some maze →
  rectangular maze ∧
  ∃ m r, MazeGrid_init maze = Ok m ∧ 0 < rows m ∧ 0 < cols m ∧
         a_star_search m = Ok r.
Proof.
  intros Hmaze. destruct (custom_maze_shape py_int stdin maze Hmaze)
    as (nrows & ncols & stdin' & _ & Hr & Hc & Hlen & Hrows & HS & HG).
  assert (∀ row, row ∈ maze → len row = ncols) as Hlens.
  { intros row Hrow. rewrite Hrows in Hrow.
    apply list_elem_of_lookup in Hrow as [i Hi].
    apply lookup_take_Some in Hi as [Hi _].
    by apply list_elem_of_lookup_2, list_elem_of_filter in Hi as [Hi _]. }
  assert (rectangular maze) as Hrect.
  { intros row Hrow.
    destruct maze as [|row0 maze]; [by apply elem_of_nil in Hrow|]. simpl.
    pose proof (Hlens row Hrow) as H1.
    pose proof (Hlens row0 ltac:(by left)) as H2. unfold len in *. lia. }
  split; [done|].
  destruct (init_accepts maze Hrect) as [m Hm].
  { apply elem_of_concat in HS as (l & ? & ?). by exists l. }
  { apply elem_of_concat in HG as (l & ? & ?). by exists l. }
  pose proof (init_well_formed _ _ Hrect Hm) as Hwf.
  pose proof (init_start_passable _ _ Hm) as [Hs _].
  destruct (search_total m Hwf Hs) as [r Hsearch].
  exists m, r. pose proof (init_ok _ _ Hm) as (_ & Hr' & Hc' & HS' & _).
  destruct HS' as (? & ? & _). split_and!; [done|lia|lia|done].
Qed.

Lemma custom_maze_is_accepted_witness :
  create_custom_maze small_int typed_lines = Some [["S"; "é"; "G"]] ∧
  rectangular [["S"; "é"; "G"]] ∧
  ∃ m r, MazeGrid_init [["S"; "é"; "G"]] = Ok m ∧ 0 < rows m ∧ 0 < cols m ∧
         a_star_search m = Ok r.
Proof.
  split; [reflexivity|].
  exact (custom_maze_is_accepted small_int typed_lines
           [["S"; "é"; "G"]] eq_refl).
Defined.

(** ** The grid that is printed *)

Lemma py_index_lookup {A} (l : list A) i :
  0 <= i →
  py_index l i = match l !! Z.to_nat i with
                 | Some x => Ok x
                 | None => Raise IndexError
                 end.
Proof.
  intros Hi. unfold py_index.
  destruct (Z.ltb_spec i 0) as [|_]; [lia|].
  destruct (Z.leb_spec 0 i) as [_|]; [|lia].
  destruct (Z.ltb_spec i (Z.of_nat (length l))) as [Hlt|Hge]; simpl; [done|].
  rewrite lookup_ge_None_2; [done|lia].
Qed.

Lemma grid_at_lookup g r c :
  0 <= r → 0 <= c →
  grid_at g r c = match g !! Z.to_nat r with
                  | Some row => match row !! Z.to_nat c with
                                | Some x => Ok x
                                | None => Raise IndexError
                                end
                  | None => Raise IndexError
                  end.
Proof.
  intros Hr Hc. unfold grid_at, res_bind. rewrite py_index_lookup by done.
  destruct (g !! Z.to_nat r); [|done]. by apply py_index_lookup.
Qed.

Lemma py_setitem_in_range {A} (l : list A) i x :
  0 <= i < len l → py_setitem l i x = Ok (<[Z.to_nat i := x]> l).
Proof.
  unfold len, py_setitem. intros Hi.
  destruct (Z.ltb_spec i 0) as [|_]; [lia|].
  destruct (Z.leb_spec 0 i) as [_|]; [|lia].
  destruct (Z.ltb_spec i (Z.of_nat (length l))) as [Hlt|Hge]; [done|lia].
Qed.

(** Marking a cell that can be read puts ['*'] there and leaves the
    other cells as they are. *)
Lemma mark_cell_spec vg (pos : Cell) :
  0 <= pos.1 → 0 <= pos.2 →
  (∃ x, grid_at vg pos.1 pos.2 = Ok x) →
  ∃ vg', mark_cell vg pos = Ok vg' ∧
         ∀ p : Cell, 0 <= p.1 → 0 <= p.2 →
           grid_at vg' p.1 p.2 =
             if decide (p = pos) then Ok "*" else grid_at vg p.1 p.2.
Proof.
  destruct pos as [r c]. simpl. intros Hr Hc [x Hx].
  apply grid_at_nonneg in Hx as (row & Hrow & Hcell); [|done..].
  pose proof (lookup_lt_Some _ _ _ Hrow) as Hrlt.
  pose proof (lookup_lt_Some _ _ _ Hcell) as Hclt.
  unfold mark_cell, res_bind.
  rewrite py_index_lookup, Hrow by done.
  rewrite py_setitem_in_range by (unfold len; lia).
  rewrite py_setitem_in_range by (unfold len; lia).
  eexists. split; [done|]. intros [r' c'] Hr' Hc'. cbn [fst snd] in *.
  rewrite !grid_at_lookup by done.
  destruct (decide ((r', c') = (r, c))) as [[= -> ->]|Hne].
  - rewrite list_lookup_insert_eq by done.
    by rewrite list_lookup_insert_eq by done.
  - destruct (decide (Z.to_nat r = Z.to_nat r')) as [Heq|Hne'].
    + assert (r' = r) as -> by lia. rewrite list_lookup_insert_eq by done.
      rewrite Hrow. rewrite list_lookup_insert_ne; [done|].
      intros Heq'. apply Hne. f_equal. lia.
    + by rewrite list_lookup_insert_ne by done.
Qed.

Lemma mark_cells_spec cells : ∀ vg,
  (∀ p : Cell, p ∈ cells →
     0 <= p.1 ∧ 0 <= p.2 ∧ ∃ x, grid_at vg p.1 p.2 = Ok x) →
  ∃ vg', mark_cells vg cells = Ok vg' ∧
         ∀ p : Cell, 0 <= p.1 → 0 <= p.2 →
           grid_at vg' p.1 p.2 =
             if decide (p ∈ cells) then Ok "*" else grid_at vg p.1 p.2.
Proof.
  induction cells as [|pos cells IH]; intros vg Hcells.
  - exists vg. split; [done|]. intros p _ _.
    case_decide as Hin; [by apply elem_of_nil in Hin|done].
  - destruct (Hcells pos ltac:(by left)) as (Hr & Hc & Hx).
    destruct (mark_cell_spec vg pos Hr Hc Hx) as (vg1 & Hmark & Hvg1).
    destruct (IH vg1) as (vg' & Hrest & Hvg').
    { intros p Hp. destruct (Hcells p ltac:(by right)) as (Hr' & Hc' & [x Hx']).
      split_and!; [done|done|]. rewrite Hvg1 by done.
      case_decide; eauto. }
    exists vg'. split; [cbn [mark_cells]; by rewrite Hmark|].
    intros p Hr' Hc'. rewrite Hvg' by done. rewrite Hvg1 by done.
    destruct (decide (p ∈ pos :: cells)) as [Hin|Hnin].
    + apply elem_of_cons in Hin as [->|Hin].
      * destruct (decide (pos ∈ cells)); [done|]. by rewrite decide_True.
      * by rewrite decide_True.
    + rewrite decide_False by (intros ?; apply Hnin; by right).
      rewrite decide_False by (intros ->; apply Hnin; by left). done.
Qed.

Lemma interior_lookup (path : list Cell) p :
  p ∈ interior path →
  ∃ i, (1 <= i)%nat ∧ (S i < length path)%nat ∧ path !! i = Some p.
Proof.
  unfold interior. intros Hp. apply list_elem_of_lookup in Hp as [i Hi].
  apply lookup_take_Some in Hi as [Hi Hlt]. rewrite lookup_drop in Hi.
  exists (1 + i)%nat. split_and!; [lia|lia|done].
Qed.

(** *** The printing loops *)

Lemma append_nil_r (s : string) : s +:+ "" = s.
Proof.
  induction s as [|a s IH]; [done|].
  change (String a (s +:+ "") = String a s). by f_equal.
Qed.

Lemma append_assoc (s1 s2 s3 : string) :
  (s1 +:+ s2) +:+ s3 = s1 +:+ (s2 +:+ s3).
Proof.
  induction s1 as [|a s1 IH]; [done|].
  change (String a ((s1 +:+ s2) +:+ s3) = String a (s1 +:+ (s2 +:+ s3))).
  by f_equal.
Qed.

Lemma seqZ_to_nat m n : seqZ m (Z.of_nat (Z.to_nat n)) = seqZ m n.
Proof. unfold seqZ. by rewrite Nat2Z.id. Qed.

(** The loop over the columns prints the cells of the row in order, when
    each of them can be read. *)
Lemma print_row_spec vg (shown : Cell → string) r : ∀ n c out,
  (∀ c', c <= c' < c + Z.of_nat n → grid_at vg r c' = Ok (shown (r, c'))) →
  print_row vg r c n out =
    Ok (out +:+ concat_str ((λ c', render_cell (shown (r, c')) +:+ " ")
                              <$> seqZ c (Z.of_nat n))).
Proof.
  induction n as [|n IH]; intros c out Hcells.
  - cbn [print_row]. change (seqZ c (Z.of_nat 0)) with (@nil Z).
    cbn [fmap list_fmap concat_str foldr]. by rewrite append_nil_r.
  - cbn [print_row]. rewrite (Hcells c) by lia. cbn [res_bind].
    rewrite IH by (intros c' Hc'; apply Hcells; lia).
    rewrite (seqZ_cons c (Z.of_nat (S n))) by lia.
    replace (Z.pred (Z.of_nat (S n))) with (Z.of_nat n) by lia.
    replace (Z.succ c) with (c + 1) by lia.
    rewrite fmap_cons. cbn [concat_str foldr].
    by rewrite !append_assoc.
Qed.

(** The loop over the rows prints the lines of the rows in order, when
    every cell of the rectangle can be read. *)
Lemma print_rows_spec vg ncols (shown : Cell → string) : ∀ n r out,
  (∀ r' c', r <= r' < r + Z.of_nat n → 0 <= c' < Z.of_nat ncols →
     grid_at vg r' c' = Ok (shown (r', c'))) →
  print_rows vg ncols r n out =
    Ok (out +:+ concat_str (row_text (Z.of_nat ncols) shown
                              <$> seqZ r (Z.of_nat n))).
Proof.
  induction n as [|n IH]; intros r out Hcells.
  - cbn [print_rows]. change (seqZ r (Z.of_nat 0)) with (@nil Z).
    cbn [fmap list_fmap concat_str foldr]. by rewrite append_nil_r.
  - cbn [print_rows].
    rewrite (print_row_spec vg shown r ncols 0 (out +:+ " "))
      by (intros c' Hc'; apply Hcells; lia).
    cbn [res_bind].
    rewrite IH by (intros r' c' Hr' Hc'; apply Hcells; lia).
    rewrite (seqZ_cons r (Z.of_nat (S n))) by lia.
    replace (Z.pred (Z.of_nat (S n))) with (Z.of_nat n) by lia.
    replace (Z.succ r) with (r + 1) by lia.
    rewrite fmap_cons. cbn [concat_str foldr]. unfold row_text at 2.
    by rewrite !append_assoc.
Qed.

(** When every cell of the [rows] x [cols] rectangle of the marked copy
    can be read, [visualize_maze] prints the text of these cells. *)
Lemma visualize_maze_spec maze path vg (shown : Cell → string) :
  visual_grid maze path = Ok vg →
  (∀ r c, 0 <= r < rows maze → 0 <= c < cols maze →
     grid_at vg r c = Ok (shown (r, c))) →
  visualize_maze maze path = Ok (maze_text maze shown).
Proof.
  intros Hvg Hcells. unfold visualize_maze. rewrite Hvg. cbn [res_bind].
  rewrite (print_rows_spec vg (Z.to_nat (cols maze)) shown)
    by (intros r' c' Hr' Hc'; apply Hcells; lia).
  cbn [res_bind]. unfold maze_text.
  rewrite !seqZ_to_nat.
  destruct (Z.le_gt_cases 0 (cols maze)) as [Hc|Hc].
  - rewrite Z2Nat.id by done. by rewrite !append_assoc.
  - assert (∀ r, row_text (Z.of_nat (Z.to_nat (cols maze))) shown r
                 = row_text (cols maze) shown r) as Hrow.
    { intros r. unfold row_text. by rewrite seqZ_to_nat. }
    erewrite (list_fmap_ext _ _ (seqZ 0 (rows maze)));
      [|intros i x _; apply Hrow].
    by rewrite !append_assoc.
Qed.

(** On the matrix with a short second row the search returns the route
    along the first row, and [visualize_maze] raises [IndexError] when it
    reads the third cell of the second row. *)
Lemma visualize_maze_ragged_raises :
  MazeGrid_init maze_ragged = Ok (built maze_ragged) ∧
  a_star_search (built maze_ragged) = Ok (Some [(0, 0); (0, 1); (0, 2)]) ∧
  visual_grid (built maze_ragged) (Some [(0, 0); (0, 1); (0, 2)])
    = Ok [["S"; "*"; "G"]; ["#"; "#"]] ∧
  visualize_maze (built maze_ragged) (Some [(0, 0); (0, 1); (0, 2)])
    = Raise IndexError.
Proof. split_and!; vm_compute; reflexivity. Qed.

(** X19: for a path returned by the search on a constructed grid,
    [visualize_maze] marks its copy of the grid without raising; in the
    copy the cells of [path[1:-1]] hold ['*'], the start and the goal keep
    ['S'] and ['G'], and every other cell is as in the grid.  When the
    grid is rectangular, every cell of the copy that the printing loops
    read is there, and [visualize_maze] runs to its end: it prints the
    header, one line for each row with the cells of the copy in their
    colours, the closing rule and the legend. *)
Theorem visual_grid_of_returned_path g m path :
  MazeGrid_init g = Ok m → a_star_search m = Ok (Some path) →
  ∃ vg, visual_grid m (Some path) = Ok vg ∧
        grid_at vg (start m).1 (start m).2 = Ok "S" ∧
        grid_at vg (goal m).1 (goal m).2 = Ok "G" ∧
        (∀ p : Cell, 0 <= p.1 → 0 <= p.2 →
           grid_at vg p.1 p.2 =
             if decide (p ∈ interior path) then Ok "*"
             else grid_at (grid m) p.1 p.2) ∧
        (rectangular g →
         ∃ shown : Cell → string,
           (∀ r c, 0 <= r < rows m → 0 <= c < cols m →
              grid_at vg r c = Ok (shown (r, c))) ∧
           visualize_maze m (Some path) = Ok (maze_text m shown)).
Proof.
  intros Hm Hpath. pose proof (init_start_passable _ _ Hm) as [Hs _].
  pose proof (search_spec m Hs) as Hroute. rewrite Hpath in Hroute.
  pose proof (returned_path_NoDup m Hs path Hpath) as Hnd.
  destruct (route_steps _ _ _ _ Hs Hroute) as [_ Hpass].
  destruct Hroute as (Hh & Hl & _).
  assert (∃ vg, mark_cells (grid m) (interior path) = Ok vg ∧
                ∀ p : Cell, 0 <= p.1 → 0 <= p.2 →
                  grid_at vg p.1 p.2 =
                    if decide (p ∈ interior path) then Ok "*"
                    else grid_at (grid m) p.1 p.2) as (vg & Hvg & Hcells).
  { apply mark_cells_spec. intros p Hp.
    apply interior_lookup in Hp as (i & _ & _ & Hi).
    destruct (Hpass p) as ((? & _) & (? & _) & x & Hx & _);
      [by eapply list_elem_of_lookup_2|]. eauto. }
  assert (visual_grid m (Some path) = Ok vg) as Hvisual by (by destruct path).
  exists vg. split; [done|].
  pose proof (init_ok _ _ Hm) as (Hg & Hr & Hc & HS & HG).
  destruct HS as (HS1 & HS2 & HS3 & _). destruct HG as (HG1 & HG2 & HG3 & _).
  split; [|split; [|split; [done|]]].
  - rewrite Hcells by lia. rewrite decide_False; [by rewrite Hg|].
    intros Hin. apply interior_lookup in Hin as (i & Hi1 & _ & Hi).
    rewrite head_lookup in Hh.
    pose proof (NoDup_lookup _ _ _ _ Hnd Hh Hi). lia.
  - rewrite Hcells by lia. rewrite decide_False; [by rewrite Hg|].
    intros Hin. apply interior_lookup in Hin as (i & _ & Hi2 & Hi).
    rewrite last_lookup in Hl.
    pose proof (NoDup_lookup _ _ _ _ Hnd Hl Hi). lia.
  - intros Hrect.
    exists (λ p, match grid_at vg p.1 p.2 with Ok x => x | _ => "" end).
    assert (∀ r c, 0 <= r < rows m → 0 <= c < cols m →
              ∃ x, grid_at vg r c = Ok x) as Hread.
    { intros r c Hr' Hc'.
      pose proof (Hcells (r, c) ltac:(simpl; lia) ltac:(simpl; lia)) as Hrc.
      cbn [fst snd] in Hrc. rewrite Hrc.
      case_decide; [eauto|]. rewrite Hg.
      apply rectangular_grid_at; [done|lia|lia]. }
    assert (∀ r c, 0 <= r < rows m → 0 <= c < cols m →
              grid_at vg r c =
                Ok (match grid_at vg r c with Ok x => x | _ => "" end))
      as Hshown.
    { intros r c Hr' Hc'. destruct (Hread r c Hr' Hc') as [x Hx].
      by rewrite Hx. }
    split; [exact Hshown|].
    by apply (visualize_maze_spec m (Some path) vg).
Qed.

Lemma visual_grid_of_returned_path_witness :
  MazeGrid_init maze_3x3 = Ok (built maze_3x3) ∧
  a_star_search (built maze_3x3)
    = Ok (Some [(0, 0); (0, 1); (1, 1); (2, 1); (2, 2)]) ∧
  visual_grid (built maze_3x3) (Some [(0, 0); (0, 1); (1, 1); (2, 1); (2, 2)])
    = Ok (maze_of_rows ["S*#"; "#*#"; "#*G"]) ∧
  visualize_maze (built maze_3x3)
    (Some [(0, 0); (0, 1); (1, 1); (2, 1); (2, 2)])
    = Ok (NL +:+ "=========" +:+ NL +:+
          " MAZE SOLVER - A* SEARCH ALGORITHM" +:+ NL +:+
          "=========" +:+ NL +:+
          " " +:+ GREEN +:+ "S" +:+ RESET +:+ " " +:+
                  YELLOW +:+ "*" +:+ RESET +:+ " " +:+
                  BLUE +:+ "#" +:+ RESET +:+ " " +:+ NL +:+
          " " +:+ BLUE +:+ "#" +:+ RESET +:+ " " +:+
                  YELLOW +:+ "*" +:+ RESET +:+ " " +:+
                  BLUE +:+ "#" +:+ RESET +:+ " " +:+ NL +:+
          " " +:+ BLUE +:+ "#" +:+ RESET +:+ " " +:+
                  YELLOW +:+ "*" +:+ RESET +:+ " " +:+
                  RED +:+ "G" +:+ RESET +:+ " " +:+ NL +:+
          "=========" +:+ NL +:+ legend) ∧
  rectangular maze_3x3 ∧
  ∃ vg, visual_grid (built maze_3x3)
          (Some [(0, 0); (0, 1); (1, 1); (2, 1); (2, 2)]) = Ok vg ∧
        grid_at vg 0 0 = Ok "S" ∧ grid_at vg 2 2 = Ok "G" ∧
        ∃ shown : Cell → string,
          visualize_maze (built maze_3x3)
            (Some [(0, 0); (0, 1); (1, 1); (2, 1); (2, 2)])
            = Ok (maze_text (built maze_3x3) shown).
Proof.
  split; [reflexivity|].
  assert (a_star_search (built maze_3x3)
          = Ok (Some [(0, 0); (0, 1); (1, 1); (2, 1); (2, 2)])) as Hp
    by (vm_compute; reflexivity).
  split; [exact Hp|]. split; [vm_compute; reflexivity|].
  split; [vm_compute; reflexivity|].
  split; [exact rectangular_3x3|].
  destruct (visual_grid_of_returned_path maze_3x3 (built maze_3x3)
              [(0, 0); (0, 1); (1, 1); (2, 1); (2, 2)] eq_refl Hp)
    as (vg & Hvg & HS & HG & _ & Hprint).
  destruct (Hprint rectangular_3x3) as (shown & _ & Htext).
  exists vg. split; [exact Hvg|]. split; [exact HS|]. split; [exact HG|].
  exists shown. exact Htext.
Defined.
